(** * PACS facility matching: address normalisation, state extraction,
      combined scoring, two-phase match resolution and contact deduplication.

    A shallow embedding of [match_addresses.py] and of the deduplication step
    of [process_contact_import.py].

    Conventions of the model.
    - A Python [str] is a [list ascii]; a character is read as the code point
      0..255 (Latin-1).  Character classes ([str.isspace], [\s], [\d], [\w],
      [str.lower]) follow CPython on that range.
    - An argument that may be [None], a pandas NaN or a [str] is a [pyobj];
      a call that may raise returns an [outcome].
    - A Python [float] score is an exact rational ([Q]).
    - The string-similarity back ends (rapidfuzz [fuzz.token_set_ratio] and
      difflib [SequenceMatcher.ratio]) are external libraries: they are
      parameters of the scoring section. *)

From Stdlib Require Import List Arith Lia Bool Ascii String ZArith QArith Qround.
From Stdlib Require Import Permutation Lqa.
Import ListNotations.

Set Implicit Arguments.
Close Scope Q_scope.
Open Scope nat_scope.

(* ================================================================== *)
(** * Python strings *)
(* ================================================================== *)

Module PyStr.

Definition str := list ascii.

(** A string literal as a Python [str]. *)
Definition py (s : string) : str := list_ascii_of_string s.

Definition code (c : ascii) : nat := nat_of_ascii c.

Definition in_range (lo hi : nat) (c : ascii) : bool :=
  (lo <=? code c) && (code c <=? hi).

(** [str.isspace] on one character, which is also the class [\s] of [re]. *)
Definition isspace (c : ascii) : bool :=
  in_range 9 13 c || in_range 28 32 c || (code c =? 133) || (code c =? 160).

(** The class [\d]. *)
Definition isdigit (c : ascii) : bool := in_range 48 57 c.

(** The class [[A-Za-z]]. *)
Definition isletter (c : ascii) : bool := in_range 65 90 c || in_range 97 122 c.

(** The class [\w]: alphanumeric characters and the underscore. *)
Definition isword (c : ascii) : bool :=
  in_range 48 57 c || in_range 65 90 c || (code c =? 95) || in_range 97 122 c
  || (code c =? 170) || in_range 178 179 c || (code c =? 181)
  || in_range 185 186 c || in_range 188 190 c
  || in_range 192 214 c || in_range 216 246 c || in_range 248 255 c.

(** Characters that [str.lower] changes: A-Z and the Latin-1 capitals. *)
Definition isupper (c : ascii) : bool :=
  in_range 65 90 c || in_range 192 214 c || in_range 216 222 c.

Definition lower_char (c : ascii) : ascii :=
  if isupper c then ascii_of_nat (code c + 32) else c.

(** [str.upper] on the characters of [[A-Za-z]], the only ones the program
    upper-cases (the capture group of the state patterns). *)
Definition upper_char (c : ascii) : ascii :=
  if in_range 97 122 c then ascii_of_nat (code c - 32) else c.

Definition lower (s : str) : str := map lower_char s.
Definition upper (s : str) : str := map upper_char s.

(** [str.lstrip()], [str.rstrip()] and [str.strip()] with no argument. *)
Fixpoint lstrip (s : str) : str :=
  match s with
  | c :: s' => if isspace c then lstrip s' else s
  | [] => []
  end.

Fixpoint rstrip (s : str) : str :=
  match s with
  | [] => []
  | c :: s' =>
      match rstrip s' with
      | [] => if isspace c then [] else [c]
      | r => c :: r
      end
  end.

Definition strip (s : str) : str := rstrip (lstrip s).

Definition str_eqb (a b : str) : bool :=
  if list_eq_dec ascii_dec a b then true else false.

(** Truthiness of a Python [str]. *)
Definition nonempty (s : str) : bool :=
  match s with [] => false | _ :: _ => true end.

(** The values the address functions are called with: [None], a NaN (the
    value pandas gives an empty cell), or a [str]. *)
Inductive pyobj : Type :=
| PyNone
| PyNaN
| PyStr (s : str).

(** The outcome of a call: a returned value, or a [TypeError]. *)
Inductive outcome (A : Type) : Type :=
| Returns (a : A)
| RaisesTypeError.

Arguments RaisesTypeError {A}.

End PyStr.
Import PyStr.

(* ================================================================== *)
(** * The fragment of [re] the program uses *)
(* ================================================================== *)

Module Re.

(** A pattern is a sequence of items.  Every quantifier of the program's
    patterns applies to a single character class, so a greedy bounded
    repetition of a class is the only consuming item. *)
Inductive instr : Type :=
| Rep (cls : ascii -> bool) (lo : nat) (hi : option nat)
      (** greedy [cls{lo,hi}]; [hi = None] is unbounded *)
| GroupOpen                       (** [(] of capture group 1 *)
| GroupClose                      (** [)] of capture group 1 *)
| WordBoundary                    (** [\b] *)
| EndOfString.                    (** [$] *)

Definition pattern := list instr.

Definition lit (c : ascii) : instr := Rep (Ascii.eqb c) 1 (Some 1).
Definition lits (s : string) : pattern := map lit (list_ascii_of_string s).
Definition star (cls : ascii -> bool) : instr := Rep cls 0 None.
Definition plus (cls : ascii -> bool) : instr := Rep cls 1 None.
Definition opt (cls : ascii -> bool) : instr := Rep cls 0 (Some 1).
Definition exactly (n : nat) (cls : ascii -> bool) : instr := Rep cls n (Some n).

(** Length of the longest prefix of [s] in class [cls], capped by [hi]. *)
Fixpoint count_prefix (cls : ascii -> bool) (hi : option nat) (s : str) : nat :=
  match hi, s with
  | Some 0, _ => 0
  | _, [] => 0
  | _, c :: s' =>
      if cls c then S (count_prefix cls (option_map pred hi) s') else 0
  end.

(** Backtracking of a greedy repetition: try [n], [n-1], ..., [lo]. *)
Fixpoint try_counts (A : Type) (k : nat -> option A) (lo n : nat) : option A :=
  if n <? lo then None
  else match k n with
       | Some r => Some r
       | None => match n with
                 | 0 => None
                 | S n' => try_counts k lo n'
                 end
       end.

(** Result of a match attempt: characters consumed, and the offsets where
    group 1 opens and closes, counted from the start of the attempt. *)
Record mresult : Type := MResult {
  consumed : nat;
  gopen : option nat;
  gclose : option nat
}.

Definition shift (k : nat) (r : mresult) : mresult :=
  MResult (k + consumed r) (option_map (Nat.add k) (gopen r))
          (option_map (Nat.add k) (gclose r)).

(** The character before the current position after consuming [k]
    characters of [cur]. *)
Definition prev_after (prev : option ascii) (cur : str) (k : nat) : option ascii :=
  match k with
  | 0 => prev
  | S k' => nth_error cur k'
  end.

Definition is_word_opt (c : option ascii) : bool :=
  match c with Some x => isword x | None => false end.

(** [\b]: exactly one of the neighbouring characters is a word character. *)
Definition at_boundary (prev : option ascii) (cur : str) : bool :=
  xorb (is_word_opt prev) (is_word_opt (hd_error cur)).

(** [$] without [re.MULTILINE]: the end of the string, or just before a
    newline that ends the string. *)
Definition at_end (cur : str) : bool :=
  match cur with
  | [] => true
  | [c] => code c =? 10
  | _ => false
  end.

(** Match pattern [p] at the current position; [prev] is the character
    before it, [cur] the rest of the string. *)
Fixpoint match_here (p : pattern) (prev : option ascii) (cur : str)
  : option mresult :=
  match p with
  | [] => Some (MResult 0 None None)
  | Rep cls lo hi :: p' =>
      try_counts
        (fun k => option_map (shift k)
                    (match_here p' (prev_after prev cur k) (skipn k cur)))
        lo (count_prefix cls hi cur)
  | GroupOpen :: p' =>
      option_map (fun r => MResult (consumed r) (Some 0) (gclose r))
                 (match_here p' prev cur)
  | GroupClose :: p' =>
      option_map (fun r => MResult (consumed r) (gopen r) (Some 0))
                 (match_here p' prev cur)
  | WordBoundary :: p' =>
      if at_boundary prev cur then match_here p' prev cur else None
  | EndOfString :: p' =>
      if at_end cur then match_here p' prev cur else None
  end.

(** Text of group 1 of a match that starts at [cur]. *)
Definition group1 (cur : str) (r : mresult) : str :=
  match gopen r, gclose r with
  | Some a, Some b => firstn (b - a) (skipn a cur)
  | _, _ => []
  end.

(** [re.search(p, s)]: the leftmost match; we keep the text of group 1. *)
Fixpoint search_from (p : pattern) (prev : option ascii) (cur : str)
  : option str :=
  match match_here p prev cur with
  | Some r => Some (group1 cur r)
  | None => match cur with
            | [] => None
            | c :: cur' => search_from p (Some c) cur'
            end
  end.

Definition search (p : pattern) (s : str) : option str := search_from p None s.

(** [re.sub(p, repl, s)] for a literal replacement: every non-overlapping
    match, left to right, is replaced.  [skip] counts the characters of the
    current match that are still to be dropped. *)
Fixpoint sub_from (p : pattern) (repl : str) (prev : option ascii) (cur : str)
  (skip : nat) : str :=
  match skip with
  | S k =>
      match cur with
      | [] => []
      | c :: cur' => sub_from p repl (Some c) cur' k
      end
  | 0 =>
      match match_here p prev cur with
      | Some r =>
          match consumed r, cur with
          | S k, c :: cur' => repl ++ sub_from p repl (Some c) cur' k
          | _, c :: cur' => repl ++ c :: sub_from p repl (Some c) cur' 0
          | _, [] => repl
          end
      | None =>
          match cur with
          | [] => []
          | c :: cur' => c :: sub_from p repl (Some c) cur' 0
          end
      end
  end.

Definition sub (p : pattern) (repl s : str) : str := sub_from p repl None s 0.

End Re.
Import Re.

(* ================================================================== *)
(** * match_addresses.py: AddressNormalizer *)
(* ================================================================== *)

(** [r',\s*([A-Za-z]{2})\s+\d{5}'] *)
Definition pattern_comma_state_zip : pattern :=
  [lit ","; star isspace; GroupOpen; exactly 2 isletter; GroupClose;
   plus isspace; exactly 5 isdigit]%char.

(** [r',\s*([A-Za-z]{2})\s*,'] *)
Definition pattern_comma_state_comma : pattern :=
  [lit ","; star isspace; GroupOpen; exactly 2 isletter; GroupClose;
   star isspace; lit ","]%char.

(** [r'\b([A-Za-z]{2})\s+\d{5}'] *)
Definition pattern_word_state_zip : pattern :=
  [WordBoundary; GroupOpen; exactly 2 isletter; GroupClose;
   plus isspace; exactly 5 isdigit].

Definition patterns : list pattern :=
  [pattern_comma_state_zip; pattern_comma_state_comma; pattern_word_state_zip].

Definition us_states : list str :=
  map py
    ["AL"; "AK"; "AZ"; "AR"; "CA"; "CO"; "CT"; "DE"; "FL"; "GA";
     "HI"; "ID"; "IL"; "IN"; "IA"; "KS"; "KY"; "LA"; "ME"; "MD";
     "MA"; "MI"; "MN"; "MS"; "MO"; "MT"; "NE"; "NV"; "NH"; "NJ";
     "NM"; "NY"; "NC"; "ND"; "OH"; "OK"; "OR"; "PA"; "RI"; "SC";
     "SD"; "TN"; "TX"; "UT"; "VT"; "VA"; "WA"; "WV"; "WI"; "WY";
     "DC"; "PR"; "VI"; "GU"; "AS"; "MP"]%string.

Definition is_us_state (s : str) : bool := existsb (str_eqb s) us_states.

(** The [for pattern in patterns] loop of [extract_state_from_address]. *)
Fixpoint scan_patterns (ps : list pattern) (addr : str) : option str :=
  match ps with
  | [] => None
  | p :: ps' =>
      match search p addr with
      | Some g =>
          let state := upper g in
          if is_us_state state then Some state else scan_patterns ps' addr
      | None => scan_patterns ps' addr
      end
  end.

(** [extract_state_from_address] on a [str]. *)
Definition state_of (addr : str) : option str :=
  if nonempty addr then scan_patterns patterns addr else None.

(** [extract_state_from_address].  [if not addr] catches [None] and the
    empty string; a NaN is truthy and reaches [re.search], which raises
    [TypeError] on an argument that is not a string. *)
Definition extract_state_from_address (addr : pyobj) : outcome (option str) :=
  match addr with
  | PyNone => Returns None
  | PyNaN => RaisesTypeError
  | PyStr a => Returns (state_of a)
  end.

(** [r'\s+'] *)
Definition pattern_ws_run : pattern := [plus isspace].

(** [r',?\s*united states of america$'] *)
Definition pattern_suffix_usoa : pattern :=
  [opt (Ascii.eqb ","%char); star isspace]
    ++ lits "united states of america" ++ [EndOfString].

(** [r',?\s*usa$'] *)
Definition pattern_suffix_usa : pattern :=
  [opt (Ascii.eqb ","%char); star isspace] ++ lits "usa" ++ [EndOfString].

(** [normalize_address]: [pd.isna] holds of [None] and of a NaN. *)
Definition normalize_address (addr : pyobj) : str :=
  match addr with
  | PyNone | PyNaN => []
  | PyStr a =>
      let addr := strip (lower a) in
      let addr := sub pattern_ws_run (py " ") addr in
      let addr := sub pattern_suffix_usoa [] addr in
      let addr := sub pattern_suffix_usa [] addr in
      strip addr
  end.

(* ================================================================== *)
(** * Scores *)
(* ================================================================== *)

Open Scope Q_scope.

Definition Qgtb (a b : Q) : bool := negb (Qle_bool a b).
Definition Qltb (a b : Q) : bool := negb (Qle_bool b a).
Definition Qgeb (a b : Q) : bool := Qle_bool b a.

(** Nearest integer, ties to the even one, as Python's [round] does. *)
Definition round_half_even (q : Q) : Z :=
  let f := Qfloor q in
  match Qcompare (q - inject_Z f) (1 # 2) with
  | Lt => f
  | Gt => (f + 1)%Z
  | Eq => if Z.even f then f else (f + 1)%Z
  end.

(** [round(x, 3)] *)
Definition round3 (q : Q) : Q := inject_Z (round_half_even (q * 1000)) / 1000.

Definition match_threshold : Q := 0.5.

(* ================================================================== *)
(** * match_addresses.py: SimilarityScorer and MatchResolver *)
(* ================================================================== *)

(** A candidate is the tuple [(addr_str, name_str, data)]. *)
Definition candidate (D : Type) : Type := (str * str * D)%type.

(** A state-bucketed index: the [defaultdict(list)] of [main], as an
    association list in insertion order (the order [.items()] iterates). *)
Definition index (D : Type) : Type := list (str * list (candidate D)).

Definition NO_STATE : str := py "__NO_STATE__".

Fixpoint index_get (D : Type) (key : str) (idx : index D)
  : option (list (candidate D)) :=
  match idx with
  | [] => None
  | (k, bucket) :: rest =>
      if str_eqb k key then Some bucket else index_get key rest
  end.

(** [idx[key].append(c)] on a [defaultdict(list)] *)
Fixpoint index_append (D : Type) (key : str) (c : candidate D) (idx : index D)
  : index D :=
  match idx with
  | [] => [(key, [c])]
  | (k, bucket) :: rest =>
      if str_eqb k key then (k, bucket ++ [c]) :: rest
      else (k, bucket) :: index_append key c rest
  end.

(** The indexing loops of [main]: a row with an empty address is dropped,
    the others go to the bucket of their state or to the sentinel bucket.
    The address of a row is a [str]. *)
Definition index_row (D : Type) (idx : index D) (c : candidate D) : index D :=
  let '(full_addr, _, _) := c in
  if nonempty full_addr then
    match state_of full_addr with
    | Some state =>
        if nonempty state then index_append state c idx
        else index_append NO_STATE c idx
    | None => index_append NO_STATE c idx
    end
  else idx.

Definition build_index (D : Type) (rows : list (candidate D)) : index D :=
  fold_left (@index_row D) rows [].

(** The [all_hs] / [all_cu] list of the fallback phase: every bucket, the
    sentinel one included, in the order of [.items()]. *)
Definition all_candidates (D : Type) (idx : index D) : list (candidate D) :=
  flat_map snd idx.

(** Outcome of the two-phase resolution of one target against one system.
    [res_state_match] and [res_fallback] are the increments of the two
    counters of [stats]; [res_ran_fallback] records whether the body of the
    second [if] was executed. *)
Record resolution (D : Type) : Type := Resolution {
  res_match : option D;
  res_score : Q;
  res_state_match : bool;
  res_fallback : bool;
  res_ran_fallback : bool
}.

Section Matching.

(** Which back end was imported, and the two back ends. *)
Variable USE_RAPIDFUZZ : bool.
(** [fuzz.token_set_ratio(a, b)], a percentage *)
Variable token_set_ratio : str -> str -> Q.
(** [SequenceMatcher(None, a, b).ratio()] *)
Variable sequence_ratio : str -> str -> Q.

(** The string similarity both scorers use. *)
Definition similarity (a b : str) : Q :=
  if USE_RAPIDFUZZ then token_set_ratio a b / 100
  else sequence_ratio (normalize_address (PyStr a)) (normalize_address (PyStr b)).

Definition combined_similarity_score
  (target_addr target_facility candidate_addr candidate_name : str) : Q :=
  if negb (nonempty target_addr) || negb (nonempty candidate_addr) then 0
  else
    let addr_score := similarity target_addr candidate_addr in
    let facility_score :=
      if nonempty target_facility && nonempty candidate_name
      then similarity target_facility candidate_name
      else 0 in
    if Qgtb facility_score 0
    then addr_score * 0.6 + facility_score * 0.4
    else addr_score.

(** The linear scan shared by [find_best_match_combined] and by the
    Corporations loop of [main]: [score] is the scorer of one candidate. *)
Fixpoint best_scan (D : Type) (score : str -> str -> Q)
  (candidates : list (candidate D)) (best_match : option D) (best_score : Q)
  : option D * Q :=
  match candidates with
  | [] => (best_match, best_score)
  | (addr_str, name_str, data) :: rest =>
      let s := score addr_str name_str in
      if Qgtb s best_score then best_scan score rest (Some data) s
      else best_scan score rest best_match best_score
  end.

Definition find_best_match_combined (D : Type)
  (target_addr target_facility : str) (candidates : list (candidate D))
  : option D * Q :=
  best_scan (combined_similarity_score target_addr target_facility)
            candidates None 0.

(** Truthiness of [hs_match]: the payload dictionaries built by [main]
    always have four keys, so only [None] is falsy. *)
Definition truthy (D : Type) (m : option D) : bool :=
  match m with Some _ => true | None => false end.

(** Phase 1: the bucket of the target's state, when the state is present
    and is a key of the index. *)
Definition state_filtered_phase (D : Type) (target_state : option str)
  (unique_addr facility_name : str) (idx : index D) : option D * Q :=
  match target_state with
  | Some st =>
      if nonempty st then
        match index_get st idx with
        | Some bucket =>
            find_best_match_combined unique_addr facility_name bucket
        | None => (None, 0)
        end
      else (None, 0)
  | None => (None, 0)
  end.

(** The condition of the second [if]. *)
Definition needs_fallback (D : Type) (r : option D * Q) : bool :=
  negb (truthy (fst r)) || Qltb (snd r) match_threshold.

Definition accepted (D : Type) (r : option D * Q) : bool :=
  truthy (fst r) && Qgeb (snd r) match_threshold.

(** Phase 2: all buckets. *)
Definition fallback_phase (D : Type) (unique_addr facility_name : str)
  (idx : index D) : option D * Q :=
  find_best_match_combined unique_addr facility_name (all_candidates idx).

(** The block of [main] that resolves one target against HubSpot, and its
    copy for ClickUp. *)
Definition resolve (D : Type) (target_state : option str)
  (unique_addr facility_name : str) (idx : index D) : resolution D :=
  let r1 := state_filtered_phase target_state unique_addr facility_name idx in
  (* when phase 1 is skipped [r1] is [(None, 0)], which is not accepted *)
  let state_hit := accepted r1 in
  if needs_fallback r1 then
    let r2 := fallback_phase unique_addr facility_name idx in
    Resolution (fst r2) (snd r2) state_hit (accepted r2) true
  else Resolution (fst r1) (snd r1) state_hit false false.

(** The Corporations block of [main]: a name-only scan, whose result is
    kept only when it reaches the threshold. *)
Definition resolve_corporations (D : Type) (facility_name : str)
  (corporations_candidates : list (candidate D)) : resolution D :=
  match corporations_candidates with
  | [] => Resolution None 0 false false false
  | _ :: _ =>
      let best :=
        best_scan (fun _ name_str => similarity facility_name name_str)
                  corporations_candidates None 0 in
      if accepted best then Resolution (fst best) (snd best) false true false
      else Resolution None 0 false false false
  end.

End Matching.

(* ================================================================== *)
(** * match_addresses.py: ReconciliationPipeline *)
(* ================================================================== *)

(** Payload dictionaries.  Identifiers and URLs come from [row.get] and may
    be [None]. *)
Record hubspot_data : Type := HubspotData {
  hubspot_record_id : option str;
  hubspot_company_name : str;
  hubspot_full_address : str;
  hubspot_parent_company : str
}.

Record clickup_data : Type := ClickupData {
  clickup_task_id : option str;
  clickup_task_name : str;
  clickup_task_location : str;
  clickup_url : option str
}.

Record corporations_data : Type := CorporationsData {
  corporations_task_id : option str;
  corporations_task_name : str;
  corporations_task_location : str;
  corporations_task_url : option str
}.



(** One row of the output sheet, columns in the order of [column_order]. *)
Record result_row : Type := ResultRow {
  unique_address : str;
  facility_name : str;
  target_state : str;
  row_hubspot_company_name : option str;
  row_hubspot_record_id : option str;
  row_hubspot_full_address : option str;
  row_hubspot_parent_company : option str;
  hubspot_match_score : Q;
  row_clickup_task_name : option str;
  row_clickup_task_location : option str;
  row_clickup_task_url : option str;
  clickup_match_score : Q;
  row_corporations_task_name : option str;
  row_corporations_task_location : option str;
  row_corporations_task_url : option str;
  corporations_match_score : Q
}.


Record stats : Type := Stats {
  hs_state_match : nat;
  hs_fallback : nat;
  cu_state_match : nat;
  cu_fallback : nat;
  corp_state_match : nat;
  corp_fallback : nat
}.

Definition bump (b : bool) (n : nat) : nat := if b then S n else n.

Section Pipeline.

Variable USE_RAPIDFUZZ : bool.
Variable token_set_ratio : str -> str -> Q.
Variable sequence_ratio : str -> str -> Q.

Variable hubspot_by_state : index hubspot_data.
Variable clickup_by_state : index clickup_data.
Variable corporations_candidates : list (candidate corporations_data).

(** [x.get(k) if m and score >= match_threshold else ''] *)
Definition field_of (D : Type) (r : resolution D) (get : D -> option str)
  : option str :=
  match res_match r with
  | Some m => if Qgeb (res_score r) match_threshold then get m else Some []
  | None => Some []
  end.

(** [round(score, 3) if m else 0] *)
Definition score_of (D : Type) (r : resolution D) : Q :=
  match res_match r with
  | Some _ => round3 (res_score r)
  | None => 0
  end.

Definition resolve_hubspot (unique_addr facility : str) : resolution hubspot_data :=
  resolve USE_RAPIDFUZZ token_set_ratio sequence_ratio
          (state_of unique_addr)
          unique_addr facility hubspot_by_state.

Definition resolve_clickup (unique_addr facility : str) : resolution clickup_data :=
  resolve USE_RAPIDFUZZ token_set_ratio sequence_ratio
          (state_of unique_addr)
          unique_addr facility clickup_by_state.

Definition resolve_corp (facility : str) : resolution corporations_data :=
  resolve_corporations USE_RAPIDFUZZ token_set_ratio sequence_ratio
                       facility corporations_candidates.

(** The body of the matching loop of [main] for one target whose address
    is a [str]. *)
Definition match_target (st : stats) (unique_addr facility : str)
  : result_row * stats :=
  let tstate := state_of unique_addr in
  let hs := resolve_hubspot unique_addr facility in
  let cu := resolve_clickup unique_addr facility in
  let corp := resolve_corp facility in
  (ResultRow unique_addr facility
     (match tstate with Some s => s | None => [] end)
     (field_of hs (fun m => Some (hubspot_company_name m)))
     (field_of hs hubspot_record_id)
     (field_of hs (fun m => Some (hubspot_full_address m)))
     (field_of hs (fun m => Some (hubspot_parent_company m)))
     (score_of hs)
     (field_of cu (fun m => Some (clickup_task_name m)))
     (field_of cu (fun m => Some (clickup_task_location m)))
     (field_of cu clickup_url)
     (score_of cu)
     (field_of corp (fun m => Some (corporations_task_name m)))
     (field_of corp (fun m => Some (corporations_task_location m)))
     (field_of corp corporations_task_url)
     (score_of corp),
   Stats (bump (res_state_match hs) (hs_state_match st))
         (bump (res_fallback hs) (hs_fallback st))
         (bump (res_state_match cu) (cu_state_match st))
         (bump (res_fallback cu) (cu_fallback st))
         (corp_state_match st)
         (bump (res_fallback corp) (corp_fallback st))).

(** The matching loop over [zip(unique_addresses, facility_names)]. *)
Fixpoint match_all (st : stats) (targets : list (str * str))
  : list result_row * stats :=
  match targets with
  | [] => ([], st)
  | (unique_addr, facility) :: rest =>
      let '(row, st') := match_target st unique_addr facility in
      let '(rows, st'') := match_all st' rest in
      (row :: rows, st'')
  end.

End Pipeline.

Close Scope Q_scope.

(* ================================================================== *)
(** * process_contact_import.py: name splitting and deduplication *)
(* ================================================================== *)

Module Contacts.

(** [str.split()] with no argument: the maximal runs of non-space
    characters.  [word] is the run being read, reversed. *)
Fixpoint split_acc (s : str) (word : str) : list str :=
  match s with
  | [] => match word with [] => [] | _ => [rev word] end
  | c :: s' =>
      if isspace c then
        match word with
        | [] => split_acc s' []
        | _ => rev word :: split_acc s' []
        end
      else split_acc s' (c :: word)
  end.

Definition split (s : str) : list str := split_acc s [].

(** [sep.join(parts)] *)
Fixpoint join (sep : str) (parts : list str) : str :=
  match parts with
  | [] => []
  | [x] => x
  | x :: rest => x ++ sep ++ join sep rest
  end.

(** [split_name]; the argument [None] is a NaN cell.  The result [None] is
    the [IndexError] of [parts[0]] on a name made of white space only. *)
Definition split_name (full_name : option str) : option (str * str) :=
  match full_name with
  | None => Some ([], [])
  | Some [] => Some ([], [])
  | Some n =>
      match split (strip n) with
      | [] => None
      | [a] => Some (a, [])
      | [a; b] => Some (a, b)
      | a :: rest => Some (a, join (py " ") rest)
      end
  end.

(** A row of the contact sheet: the columns the key is built from.  [None]
    is a NaN cell; [row_id] stands for the other columns of the row. *)
Record contact : Type := Contact {
  row_id : nat;
  name : option str;
  emails : option str;
  facility : option str
}.

(** A row after the enrichment loop. *)
Record enriched : Type := Enriched {
  source : contact;
  first_name : str;
  last_name : str
}.

Definition enrich (c : contact) : option enriched :=
  match split_name (name c) with
  | Some (f, l) => Some (Enriched c f l)
  | None => None
  end.

(** The enrichment loop; [None] when [split_name] raises on some row. *)
Fixpoint enrich_all (rows : list contact) : option (list enriched) :=
  match rows with
  | [] => Some []
  | c :: rest =>
      match enrich c, enrich_all rest with
      | Some e, Some es => Some (e :: es)
      | _, _ => None
      end
  end.

(** [.fillna('')] *)
Definition fillna (v : option str) : str :=
  match v with Some s => s | None => [] end.

(** [.fillna('').str.lower().str.strip()] on one cell *)
Definition key_part (v : option str) : str := strip (lower (fillna v)).

(** The [dedup_key] column. *)
Definition dedup_key (e : enriched) : str :=
  key_part (facility (source e)) ++ py "|" ++
  key_part (Some (first_name e)) ++ py "|" ++
  key_part (Some (last_name e)) ++ py "|" ++
  key_part (emails (source e)).

(** [drop_duplicates(subset=['dedup_key'], keep='first')]: [seen] holds the
    keys of the rows already passed. *)
Fixpoint drop_duplicates_from (seen : list str) (rows : list enriched)
  : list enriched :=
  match rows with
  | [] => []
  | e :: rest =>
      if existsb (str_eqb (dedup_key e)) seen
      then drop_duplicates_from seen rest
      else e :: drop_duplicates_from (dedup_key e :: seen) rest
  end.

Definition drop_duplicates (rows : list enriched) : list enriched :=
  drop_duplicates_from [] rows.

(** Enrichment followed by deduplication, as [main] runs them. *)
Definition process (rows : list contact) : option (list enriched) :=
  option_map drop_duplicates (enrich_all rows).

(** The composite key the comment of [main] describes: the four components,
    each lower-cased and trimmed. *)
Definition composite_key (e : enriched) : str * str * str * str :=
  (key_part (facility (source e)),
   key_part (Some (first_name e)),
   key_part (Some (last_name e)),
   key_part (emails (source e))).

End Contacts.

(* ================================================================== *)
(** * Definitions used to state the properties *)
(* ================================================================== *)

(** The score of a candidate under a scorer of (address, name). *)
Definition score_c (D : Type) (score : str -> str -> Q) (c : candidate D) : Q :=
  score (fst (fst c)) (snd (fst c)).

(** A back end given by a finite table, for evaluating the scorers on
    concrete inputs: the listed pairs have the listed value, every other
    pair has the value 0. *)
Fixpoint table_ratio (tbl : list (str * str * Q)) (a b : str) : Q :=
  match tbl with
  | [] => 0%Q
  | (x, y, v) :: rest =>
      if str_eqb x a && str_eqb y b then v else table_ratio rest a b
  end.

(** [s.endswith(w)] *)
Definition endswith (w s : str) : bool :=
  str_eqb (skipn (List.length s - List.length w) s) w
  && (List.length w <=? List.length s).

(** ** Normalisation in the words of the specification *)

(** Every run of white space becomes one space; [in_run] tells that the
    previous character was white space. *)
Fixpoint collapse_ws (in_run : bool) (s : str) : str :=
  match s with
  | [] => []
  | c :: s' =>
      if isspace c then
        if in_run then collapse_ws true s'
        else " "%char :: collapse_ws true s'
      else c :: collapse_ws false s'
  end.

(** Remove one trailing comma. *)
Fixpoint drop_comma (s : str) : str :=
  match s with
  | [] => []
  | [c] => if Ascii.eqb ","%char c then [] else [c]
  | c :: s' => c :: drop_comma s'
  end.

(** When [s] ends with [w]: remove [w], the white space before it and one
    comma before that. *)
Definition drop_suffix (w s : str) : str :=
  if endswith w s
  then drop_comma (rstrip (firstn (List.length s - List.length w) s))
  else s.

(** Lower-case, trim, collapse white space, remove the listed trailing
    suffixes in order, trim. *)
Definition normalize_spec (suffixes : list str) (a : str) : str :=
  strip (fold_left (fun s w => drop_suffix w s) suffixes
                   (collapse_ws false (strip (lower a)))).

(** The suffixes named by the specification, and those of the code. *)
Definition spec_suffixes : list str := [py "united states"; py "usa"].
Definition code_suffixes : list str := [py "united states of america"; py "usa"].

(** ** The cells of one system in an output row, and in a payload *)








Definition no_stats : stats := Stats 0 0 0 0 0 0.

(** ** State extraction *)

(** The valid code a pattern yields on an address: the upper-cased group of
    its leftmost match, when that is a state code. *)
Definition yields (p : pattern) (addr : str) : option str :=
  match search p addr with
  | Some g => if is_us_state (upper g) then Some (upper g) else None
  | None => None
  end.

(** Every character of [s] is in the class [cls]. *)
Definition all_in (cls : ascii -> bool) (s : str) : Prop :=
  Forall (fun c => cls c = true) s.

(** The last character of a text, if any. *)
Definition last_char (s : str) : option ascii :=
  match rev s with c :: _ => Some c | [] => None end.

(** The character before a position: the last one of the text [pre] that
    precedes it, or [prev] when [pre] is empty. *)
Definition before (prev : option ascii) (pre : str) : option ascii :=
  match last_char pre with Some c => Some c | None => prev end.

(** The texts the three patterns match, with the two letters [g] of the
    group.  [prev] is the character before the text. *)

(** A comma, white space if any, two letters, white space, five digits. *)
Definition comma_state_zip_text (prev : option ascii) (t g : str) : Prop :=
  exists ws ws' d,
    t = ","%char :: ws ++ g ++ ws' ++ d /\
    all_in isspace ws /\ List.length g = 2 /\ all_in isletter g /\
    ws' <> [] /\ all_in isspace ws' /\ List.length d = 5 /\ all_in isdigit d.

(** A comma, white space if any, two letters, white space if any, a comma. *)
Definition comma_state_comma_text (prev : option ascii) (t g : str) : Prop :=
  exists ws ws',
    t = ","%char :: ws ++ g ++ ws' ++ [","%char] /\
    all_in isspace ws /\ List.length g = 2 /\ all_in isletter g /\
    all_in isspace ws'.

(** Not after a word character: two letters, white space, five digits. *)
Definition word_state_zip_text (prev : option ascii) (t g : str) : Prop :=
  is_word_opt prev = false /\
  exists ws' d,
    t = g ++ ws' ++ d /\
    List.length g = 2 /\ all_in isletter g /\
    ws' <> [] /\ all_in isspace ws' /\ List.length d = 5 /\ all_in isdigit d.


(** ** Order-preserving selections of rows *)

Inductive subseq (A : Type) : list A -> list A -> Prop :=
| subseq_nil : subseq [] []
| subseq_skip : forall x l1 l2, subseq l1 l2 -> subseq l1 (x :: l2)
| subseq_keep : forall x l1 l2, subseq l1 l2 -> subseq (x :: l1) (x :: l2).


(** No component of the key of a row contains the separator. *)
Definition bar_free (e : Contacts.enriched) : Prop :=
  let '(f, a, b, m) := Contacts.composite_key e in
  ~ In "|"%char f /\ ~ In "|"%char a /\ ~ In "|"%char b /\ ~ In "|"%char m.

(** The line feed, the only character [$] may leave unmatched. *)
Definition newline : ascii := ascii_of_nat 10.

(** [,?\s*w$] for a literal text [w]. *)
Definition pattern_suffix (w : str) : pattern :=
  [opt (Ascii.eqb ","%char); star isspace] ++ map lit w ++ [EndOfString].

(** The texts [,?\s*] matches: white space, or a comma and white space. *)
Definition comma_space (pre : str) : Prop :=
  exists ws, Forall (fun c => isspace c = true) ws /\
             (pre = ws \/ pre = ","%char :: ws).

(** All white space is single spaces; [after_space] tells that the previous
    character was white space. *)
Fixpoint spaced (after_space : bool) (s : str) : Prop :=
  match s with
  | [] => True
  | c :: s' =>
      if isspace c then c = " "%char /\ after_space = false /\ spaced true s'
      else spaced false s'
  end.

(** ** Concrete inputs on which the code is evaluated *)

Module Sample.

Definition oak_target : str := py "100 Oak Ave, Austin, TX 78701".
Definition oak_candidate : str := py "100 Oak Avenue, Austin, TX 78701".
Definition elm_candidate : str := py "7 Elm Road".

(** A back end that gives 40 to the Oak addresses, 100 to equal names
    "Acme" and to equal addresses "1 Main St", 60 and 61 to the addresses
    "A" and "B" against the target "T", and 0 to everything else (among
    which the names "a" and "b", which have no character in common). *)
Definition ratio : str -> str -> Q :=
  table_ratio
    [(oak_target, oak_candidate, 40%Q);
     (py "Acme", py "Acme", 100%Q);
     (py "1 Main St", py "1 Main St", 100%Q);
     (py "T", py "A", 60%Q);
     (py "T", py "B", 61%Q)].

(** An index of two rows: one lands in the TX bucket, the other, without a
    state, in the sentinel bucket. *)
Definition two_bucket_index : index nat :=
  build_index [(oak_candidate, py "Oak Facility Inc", 1%nat);
               (elm_candidate, py "Elm House", 2%nat)].



(** Two contact rows whose keys have different components and the same
    joined text. *)
Definition bar_contacts : list Contacts.contact :=
  [Contacts.Contact 0 (Some (py "c")) (Some (py "e@x.org")) (Some (py "a|b"));
   Contacts.Contact 1 (Some (py "b|c")) (Some (py "e@x.org")) (Some (py "a"))].

End Sample.

(* ================================================================== *)
(** * match_addresses.py: the rest of the pipeline *)
(* ================================================================== *)

(** A HubSpot company row: the cells the indexing loop reads, [None] being a
    missing or NaN cell, and [record_id], the value of
    [row.get('id') or row.get('properties_hs_object_id')]. *)
Record hubspot_row : Type := HubspotRow {
  properties_address : option str;
  properties_address2 : option str;
  properties_city : option str;
  properties_state : option str;
  properties_zip : option str;
  properties_country : option str;
  properties_name : option str;
  properties_parentconame : option str;
  record_id : option str
}.

(** [if pd.notna(v) and str(v): parts.append(str(v).strip())] *)
Definition field_part (v : option str) : list str :=
  match v with
  | Some s => if nonempty s then [strip s] else []
  | None => []
  end.

(** [build_hubspot_address] *)
Definition build_hubspot_address (row : hubspot_row) : str :=
  let parts := field_part (properties_address row)
               ++ field_part (properties_address2 row) in
  let city_state_zip := field_part (properties_city row)
                        ++ field_part (properties_state row)
                        ++ field_part (properties_zip row) in
  let parts :=
    match city_state_zip with
    | [] => parts
    | _ :: _ => parts ++ [Contacts.join (py ", ") city_state_zip]
    end in
  let parts := parts ++ field_part (properties_country row) in
  Contacts.join (py ", ") parts.

(** The candidate the HubSpot indexing loop of [main] builds from a row. *)
Definition hubspot_candidate (row : hubspot_row) : candidate hubspot_data :=
  let full_addr := build_hubspot_address row in
  let company_name := Contacts.fillna (properties_name row) in
  let parent_company := Contacts.fillna (properties_parentconame row) in
  (full_addr, company_name,
   HubspotData (record_id row)
               company_name full_addr parent_company).

(** [hubspot_by_state] as [main] builds it. *)
Definition hubspot_index (rows : list hubspot_row) : index hubspot_data :=
  build_index (map hubspot_candidate rows).

(** A Python [dict] with [str] keys, in insertion order. *)
Definition dict (V : Type) : Type := list (str * V).

Fixpoint dict_get (V : Type) (k : str) (d : dict V) : option V :=
  match d with
  | [] => None
  | (k', v) :: rest => if str_eqb k' k then Some v else dict_get k rest
  end.

(** [d[k] = v] *)
Fixpoint dict_set (V : Type) (k : str) (v : V) (d : dict V) : dict V :=
  match d with
  | [] => [(k, v)]
  | (k', v') :: rest =>
      if str_eqb k' k then (k', v) :: rest else (k', v') :: dict_set k v rest
  end.

(** A row of the [employees] sheet. *)
Record employee : Type := Employee {
  employee_address : option str;
  employee_facility : option str
}.

(** [str(v).strip() if pd.notna(v) else ''] *)
Definition stripped (v : option str) : str := strip (Contacts.fillna v).

(** The [address_to_facility] loop of [main]: the first facility seen for an
    address is kept. *)
Definition note_facility (d : dict str) (e : employee) : dict str :=
  let addr := stripped (employee_address e) in
  let facility := stripped (employee_facility e) in
  if nonempty addr && nonempty facility then
    match dict_get addr d with
    | Some _ => d
    | None => dict_set addr facility d
    end
  else d.

Definition address_to_facility (employees : list employee) : dict str :=
  fold_left note_facility employees [].

(** [unique_df['unique_address'].map(address_to_facility)] followed by
    [.fillna('')], on one address. *)
Definition facility_name_of (employees : list employee) (unique_addr : str) : str :=
  match dict_get unique_addr (address_to_facility employees) with
  | Some f => f
  | None => []
  end.

(** The totals of the summary of [main]: the rows whose score column
    reaches the threshold. *)
Definition count_matches (col : result_row -> Q) (rows : list result_row) : nat :=
  List.length (filter (fun r => Qgeb (col r) match_threshold) rows).

(* ================================================================== *)
(** * process_contact_import.py: identifiers and existing contacts *)
(* ================================================================== *)

(** The class [[a-zA-Z0-9]]. *)
Definition isalnum (c : ascii) : bool :=
  in_range 97 122 c || in_range 65 90 c || in_range 48 57 c.

(** [r'/t/([a-zA-Z0-9]+)'] *)
Definition pattern_task_id : pattern :=
  [lit "/"; lit "t"; lit "/"; GroupOpen; plus isalnum; GroupClose]%char.

(** [extract_clickup_task_id] *)
Definition extract_clickup_task_id (url : pyobj) : str :=
  match url with
  | PyNone | PyNaN => []
  | PyStr u =>
      if nonempty u then
        match search pattern_task_id u with
        | Some g => g
        | None => []
        end
      else []
  end.

(** A row of the HubSpot contacts table. *)
Record hs_contact : Type := HsContact {
  contact_record_id : option str;
  hs_first_name : option str;
  hs_last_name : option str;
  hs_email : option str;
  hs_company_name : option str
}.

(** The value [load_hubspot_contacts] stores for a row. *)
Record hs_entry : Type := HsEntry {
  entry_record_id : option str;
  entry_first_name : option str;
  entry_last_name : option str;
  entry_company_name : option str
}.

Definition entry_of (row : hs_contact) : hs_entry :=
  HsEntry (contact_record_id row) (hs_first_name row) (hs_last_name row)
          (hs_company_name row).

(** [f"{first}|{last}"] *)
Definition name_key (first last : str) : str := first ++ py "|" ++ last.

(** One step of the indexing loop of [load_hubspot_contacts]. *)
Definition note_contact (lk : dict hs_entry * dict hs_entry) (row : hs_contact)
  : dict hs_entry * dict hs_entry :=
  let email := Contacts.key_part (hs_email row) in
  let first := Contacts.key_part (hs_first_name row) in
  let last := Contacts.key_part (hs_last_name row) in
  let email_lookup :=
    if nonempty email then dict_set email (entry_of row) (fst lk) else fst lk in
  let name_lookup :=
    if nonempty first && nonempty last
    then dict_set (name_key first last) (entry_of row) (snd lk)
    else snd lk in
  (email_lookup, name_lookup).

(** The two lookups [load_hubspot_contacts] returns. *)
Definition load_lookups (rows : list hs_contact) : dict hs_entry * dict hs_entry :=
  fold_left note_contact rows ([], []).

(** [check_hubspot_contact_exists] *)
Definition check_hubspot_contact_exists (email_lookup name_lookup : dict hs_entry)
  (first_name last_name email : str) : option hs_entry :=
  match (if nonempty email
         then dict_get (Contacts.key_part (Some email)) email_lookup
         else None) with
  | Some e => Some e
  | None =>
      if nonempty first_name && nonempty last_name
      then dict_get (name_key (Contacts.key_part (Some first_name))
                              (Contacts.key_part (Some last_name)))
                    name_lookup
      else None
  end.

(* ================================================================== *)
(** * Definitions used to state further properties *)
(* ================================================================== *)

(** The key of the bucket a row is filed under. *)
Definition bucket_key (D : Type) (c : candidate D) : str :=
  match state_of (fst (fst c)) with
  | Some state => if nonempty state then state else NO_STATE
  | None => NO_STATE
  end.

(** The rows the indexing loop keeps. *)
Definition indexed (D : Type) (c : candidate D) : bool := nonempty (fst (fst c)).

(** A bucket followed by further rows; no bucket when both are empty. *)
Definition extend_bucket (D : Type) (b : option (list (candidate D)))
  (l : list (candidate D)) : option (list (candidate D)) :=
  match b, l with
  | Some b', _ => Some (b' ++ l)
  | None, [] => None
  | None, _ => Some l
  end.

(** A resolution whose identifiers are written to the row. *)
Definition reported (D : Type) (r : resolution D) : bool :=
  truthy (res_match r) && Qgeb (res_score r) match_threshold.

Definition count_if (A : Type) (f : A -> bool) (l : list A) : nat :=
  List.length (filter f l).

(** A token of a name: not empty and free of white space. *)
Definition token (t : str) : Prop :=
  t <> [] /\ Forall (fun c => isspace c = false) t.

(** A cell with text other than white space. *)
Definition has_text (v : option str) : Prop :=
  exists s, v = Some s /\ strip s <> [].

Module Sample2.

(** A back end that prefers the row without a state to the Texas row. *)
Definition elm_ratio : str -> str -> Q :=
  table_ratio [(Sample.oak_target, Sample.oak_candidate, 40%Q);
               (Sample.oak_target, Sample.elm_candidate, 90%Q)].

(** Two rows of the contact sheet for the same person. *)
Definition ann_first : Contacts.enriched :=
  Contacts.Enriched
    (Contacts.Contact 0 (Some (py "Ann Lee")) (Some (py "ann@x.org"))
                      (Some (py "Oak")))
    (py "Ann") (py "Lee").

Definition ann_again : Contacts.enriched :=
  Contacts.Enriched
    (Contacts.Contact 1 (Some (py "ann  lee")) (Some (py "Ann@x.org "))
                      (Some (py "OAK")))
    (py "ann") (py "lee").

End Sample2.

(** The six address cells of a HubSpot row, in the order they are used. *)
Definition address_fields (row : hubspot_row) : list (option str) :=
  [properties_address row; properties_address2 row; properties_city row;
   properties_state row; properties_zip row; properties_country row].

(** The HubSpot row whose normalised email is that of the contact. *)
Definition same_email (email : str) (row : hs_contact) : bool :=
  nonempty (Contacts.key_part (hs_email row))
  && str_eqb (Contacts.key_part (hs_email row)) (Contacts.key_part (Some email)).

(** The HubSpot row whose normalised first and last names are both present
    and give the name key of the contact. *)
Definition same_name (first_name last_name : str) (row : hs_contact) : bool :=
  nonempty (Contacts.key_part (hs_first_name row))
  && nonempty (Contacts.key_part (hs_last_name row))
  && str_eqb (name_key (Contacts.key_part (hs_first_name row))
                       (Contacts.key_part (hs_last_name row)))
             (name_key (Contacts.key_part (Some first_name))
                       (Contacts.key_part (Some last_name))).

(** The last row of a table that satisfies a test. *)
Definition find_last (A : Type) (f : A -> bool) (l : list A) : option A :=
  find f (rev l).

(** The employee row that gives an address its facility. *)
Definition gives_facility (unique_addr : str) (e : employee) : bool :=
  nonempty (stripped (employee_address e))
  && nonempty (stripped (employee_facility e))
  && str_eqb (stripped (employee_address e)) unique_addr.

(** The rows the state-filtered phase scans for a target of state [st]:
    those with a non-empty address from which the same state is extracted. *)
Definition same_state (D : Type) (st : str) (c : candidate D) : bool :=
  nonempty (fst (fst c))
  && match state_of (fst (fst c)) with
     | Some s => str_eqb s st
     | None => false
     end.

(** A character map under which every class of a pattern is stable. *)
Definition stable_under (f : ascii -> ascii) (p : pattern) : Prop :=
  Forall (fun i => match i with
                   | Rep cls _ _ => forall c, cls (f c) = cls c
                   | _ => True
                   end) p.

Arguments Ascii.eqb : simpl never.
Arguments isspace : simpl never.

(* ================================================================== *)
(** * Comparisons on scores *)
(* ================================================================== *)

Lemma Qgtb_lt (a b : Q) : Qgtb a b = true <-> (b < a)%Q.
Proof.
  unfold Qgtb. rewrite negb_true_iff, <- not_true_iff_false, Qle_bool_iff.
  split; [apply Qnot_le_lt | apply Qlt_not_le].
Qed.

Lemma Qgtb_le (a b : Q) : Qgtb a b = false <-> (a <= b)%Q.
Proof.
  unfold Qgtb. rewrite negb_false_iff. apply Qle_bool_iff.
Qed.

Lemma Qltb_lt (a b : Q) : Qltb a b = true <-> (a < b)%Q.
Proof. apply (Qgtb_lt b a). Qed.

Lemma Qltb_le (a b : Q) : Qltb a b = false <-> (b <= a)%Q.
Proof. apply (Qgtb_le b a). Qed.

Lemma Qgeb_le (a b : Q) : Qgeb a b = true <-> (b <= a)%Q.
Proof. apply Qle_bool_iff. Qed.


(* ================================================================== *)
(** * The linear scan *)
(* ================================================================== *)

Section ScanFacts.

Variable D : Type.
Variable score : str -> str -> Q.

(** What a scan that starts from [(m0, s0)] returns: either nothing beat
    [s0], or the result is the first candidate that reaches the greatest
    score. *)
Lemma best_scan_spec (cands : list (candidate D)) :
  forall (m0 : option D) (s0 : Q) (m : option D) (s : Q),
    best_scan score cands m0 s0 = (m, s) ->
    (m = m0 /\ s = s0 /\ forall c, In c cands -> (score_c score c <= s0)%Q)
    \/ (exists l1 c l2,
           cands = l1 ++ c :: l2 /\ m = Some (snd c) /\ s = score_c score c /\
           (s0 < s)%Q /\
           (forall x, In x l1 -> (score_c score x < s)%Q) /\
           (forall x, In x l2 -> (score_c score x <= s)%Q)).
Proof.
  induction cands as [|[[a n] d] rest IH]; intros m0 s0 m s H; simpl in H.
  - left. inversion H; subst. repeat split; auto. intros c [].
  - destruct (Qgtb (score a n) s0) eqn:E.
    + apply Qgtb_lt in E. right.
      destruct (IH _ _ _ _ H) as [(-> & -> & Hall) | (l1 & c & l2 & -> & -> & -> & Hlt & H1 & H2)].
      * exists [], (a, n, d), rest. repeat split; auto. intros x [].
      * exists ((a, n, d) :: l1), c, l2. repeat split; auto.
        -- eapply Qlt_trans; eauto.
        -- intros x [<- | Hx]; auto.
    + apply Qgtb_le in E.
      destruct (IH _ _ _ _ H) as [(-> & -> & Hall) | (l1 & c & l2 & -> & -> & -> & Hlt & H1 & H2)].
      * left. repeat split; auto. intros c [<- | Hc]; auto.
      * right. exists ((a, n, d) :: l1), c, l2. repeat split; auto.
        intros x [<- | Hx]; auto. eapply Qle_lt_trans; eauto.
Qed.

(** The score a scan returns bounds every candidate's score and the
    starting score. *)
Lemma best_scan_upper (cands : list (candidate D)) (m0 : option D) (s0 : Q) :
  (s0 <= snd (best_scan score cands m0 s0))%Q /\
  forall c, In c cands -> (score_c score c <= snd (best_scan score cands m0 s0))%Q.
Proof.
  destruct (best_scan score cands m0 s0) as [m s] eqn:E. simpl.
  destruct (best_scan_spec _ _ _ E) as [(-> & -> & Hall) | (l1 & c & l2 & -> & -> & -> & Hlt & H1 & H2)].
  - split; [apply Qle_refl | exact Hall].
  - split; [apply Qlt_le_weak; exact Hlt |].
    intros x Hx. apply in_app_or in Hx. destruct Hx as [Hx | [<- | Hx]].
    + apply Qlt_le_weak; auto.
    + apply Qle_refl.
    + auto.
Qed.

(** The returned score is the starting score or the score of a candidate. *)
Lemma best_scan_attained (cands : list (candidate D)) (m0 : option D) (s0 : Q) :
  snd (best_scan score cands m0 s0) = s0 \/
  exists c, In c cands /\ snd (best_scan score cands m0 s0) = score_c score c.
Proof.
  destruct (best_scan score cands m0 s0) as [m s] eqn:E. simpl.
  destruct (best_scan_spec _ _ _ E) as [(-> & -> & Hall) | (l1 & c & l2 & -> & -> & -> & Hlt & H1 & H2)].
  - now left.
  - right. exists c. split; auto. apply in_or_app. right. now left.
Qed.

(** A scan started from [(None, 0)] that returns no candidate returns 0. *)
Lemma best_scan_none (cands : list (candidate D)) (s : Q) :
  best_scan score cands None 0 = (None, s) -> s = 0%Q.
Proof.
  intros E.
  destruct (best_scan_spec _ _ _ E) as [(_ & -> & _) | (l1 & c & l2 & _ & Hm & _)].
  - reflexivity.
  - discriminate.
Qed.

(** Scanning more candidates cannot lower the score. *)
Lemma best_scan_incl (l1 l2 : list (candidate D)) :
  incl l1 l2 ->
  (snd (best_scan score l1 None 0) <= snd (best_scan score l2 None 0))%Q.
Proof.
  intros Hincl.
  destruct (best_scan_attained l1 None 0) as [-> | (c & Hc & ->)].
  - apply best_scan_upper.
  - apply best_scan_upper. apply Hincl, Hc.
Qed.

End ScanFacts.

(* ================================================================== *)
(** * The index *)
(* ================================================================== *)

Lemma str_eqb_eq (a b : str) : str_eqb a b = true <-> a = b.
Proof.
  unfold str_eqb. destruct (list_eq_dec ascii_dec a b); split; congruence.
Qed.

Lemma index_get_In (D : Type) (key : str) (idx : index D) (bucket : list (candidate D)) :
  index_get key idx = Some bucket -> In (key, bucket) idx.
Proof.
  induction idx as [|[k b] rest IH]; simpl; [discriminate|].
  destruct (str_eqb k key) eqn:E.
  - apply str_eqb_eq in E. intros [= <-]. left. congruence.
  - intros H. right. auto.
Qed.

Lemma all_candidates_bucket (D : Type) (idx : index D) (key : str)
  (bucket : list (candidate D)) (c : candidate D) :
  In (key, bucket) idx -> In c bucket -> In c (all_candidates idx).
Proof.
  intros Hb Hc. unfold all_candidates. apply in_flat_map.
  exists (key, bucket). auto.
Qed.

Lemma all_candidates_origin (D : Type) (idx : index D) (c : candidate D) :
  In c (all_candidates idx) ->
  exists key bucket, In (key, bucket) idx /\ In c bucket.
Proof.
  unfold all_candidates. rewrite in_flat_map.
  intros ([k b] & Hin & Hc). exists k, b. auto.
Qed.

Lemma index_get_incl (D : Type) (key : str) (idx : index D) (bucket : list (candidate D)) :
  index_get key idx = Some bucket -> incl bucket (all_candidates idx).
Proof.
  intros H c Hc. eapply all_candidates_bucket; eauto using index_get_In.
Qed.

(* ================================================================== *)
(** * Scoring and resolution *)
(* ================================================================== *)

Section MatchingFacts.

Variable USE_RAPIDFUZZ : bool.
Variable token_set_ratio : str -> str -> Q.
Variable sequence_ratio : str -> str -> Q.

Local Abbreviation sim := (similarity USE_RAPIDFUZZ token_set_ratio sequence_ratio).
Local Abbreviation combined :=
  (combined_similarity_score USE_RAPIDFUZZ token_set_ratio sequence_ratio).
Local Abbreviation find_best :=
  (find_best_match_combined USE_RAPIDFUZZ token_set_ratio sequence_ratio).
Local Abbreviation phase1 :=
  (state_filtered_phase USE_RAPIDFUZZ token_set_ratio sequence_ratio).
Local Abbreviation phase2 :=
  (fallback_phase USE_RAPIDFUZZ token_set_ratio sequence_ratio).
Local Abbreviation resolve' :=
  (resolve USE_RAPIDFUZZ token_set_ratio sequence_ratio).


(** C5.  [find_best_match_combined] scans the candidates in order and takes
    a candidate only on a strictly greater score: a returned candidate has a
    positive score, every candidate before it scores strictly less and every
    candidate after it scores at most as much (the first-seen candidate wins
    ties); no candidate is returned, with score 0, exactly when no score is
    positive, in particular on the empty list; and of two candidates scoring
    0.6 and 0.61 the second is returned with its score. *)
Theorem find_best_match_combined_first_maximum
  (D : Type) (target_addr target_facility : str) (cands : list (candidate D)) :
  let score := combined target_addr target_facility in
  find_best target_addr target_facility (@nil (candidate D)) = (None, 0%Q)
  /\
  (forall d s,
      find_best target_addr target_facility cands = (Some d, s) ->
      exists l1 c l2,
        cands = l1 ++ c :: l2 /\ d = snd c /\ s = score_c score c /\
        (0 < s)%Q /\
        (forall x, In x l1 -> (score_c score x < s)%Q) /\
        (forall x, In x l2 -> (score_c score x <= s)%Q))
  /\
  (forall s,
      find_best target_addr target_facility cands = (None, s) ->
      s = 0%Q /\ forall c, In c cands -> (score_c score c <= 0)%Q)
  /\
  (forall c1 c2,
      cands = [c1; c2] ->
      (score_c score c1 == 0.6)%Q ->
      (score_c score c2 == 0.61)%Q ->
      find_best target_addr target_facility cands
      = (Some (snd c2), score_c score c2)).
Proof.
  intros score. unfold find_best_match_combined. fold score.
  split; [reflexivity|]. split; [|split].
  - intros d s E.
    destruct (best_scan_spec _ _ _ _ E) as [(Hm & _) | (l1 & c & l2 & -> & Hm & -> & Hlt & H1 & H2)].
    + discriminate.
    + exists l1, c, l2. injection Hm as ->. repeat split; auto.
  - intros s E.
    destruct (best_scan_spec _ _ _ _ E) as [(_ & -> & Hall) | (l1 & c & l2 & _ & Hm & _)].
    + split; auto.
    + discriminate.
  - intros [[a1 n1] d1] [[a2 n2] d2] -> H1 H2. unfold score_c in *. simpl in *.
    assert (E1 : Qgtb (score a1 n1) 0 = true).
    { apply Qgtb_lt. rewrite H1. reflexivity. }
    assert (E2 : Qgtb (score a2 n2) (score a1 n1) = true).
    { apply Qgtb_lt. rewrite H1, H2. reflexivity. }
    now rewrite E1, E2.
Qed.

(** C10.  The score of the fallback phase is never below the score of the
    state-filtered phase: the bucket scanned in phase 1 is contained in the
    list of all candidates scanned by the fallback.  So the score [resolve]
    reports is never below the state-filtered score. *)
Theorem fallback_score_not_lower
  (D : Type) (target_state : option str) (unique_addr facility_name : str)
  (idx : index D) :
  (forall key bucket,
      index_get key idx = Some bucket -> incl bucket (all_candidates idx))
  /\
  (snd (phase1 target_state unique_addr facility_name idx)
   <= snd (phase2 unique_addr facility_name idx))%Q
  /\
  (snd (phase1 target_state unique_addr facility_name idx)
   <= res_score (resolve' target_state unique_addr facility_name idx))%Q.
Proof.
  assert (H12 : (snd (phase1 target_state unique_addr facility_name idx)
                 <= snd (phase2 unique_addr facility_name idx))%Q).
  { unfold state_filtered_phase, fallback_phase, find_best_match_combined.
    destruct target_state as [st|]; [destruct (nonempty st)|];
      try apply best_scan_upper.
    destruct (index_get st idx) as [bucket|] eqn:E; [|apply best_scan_upper].
    apply best_scan_incl. eapply index_get_incl; eauto. }
  split; [intros; eapply index_get_incl; eauto|]. split; [exact H12|].
  unfold resolve.
  destruct (needs_fallback (phase1 target_state unique_addr facility_name idx));
    simpl; [exact H12 | apply Qle_refl].
Qed.

(** C2.  The fallback phase runs exactly when the state-filtered phase
    returned no candidate or a score below the threshold 0.5; it scans the
    candidates of every bucket of the index, the sentinel bucket included, and
    nothing else; when it runs its result is the one reported, otherwise the
    state-filtered result is. *)
Theorem fallback_runs_iff_filtered_rejected
  (D : Type) (target_state : option str) (unique_addr facility_name : str)
  (idx : index D) :
  let r1 := phase1 target_state unique_addr facility_name idx in
  let r := resolve' target_state unique_addr facility_name idx in
  (match_threshold == 0.5)%Q
  /\
  (res_ran_fallback r = true <->
   fst r1 = None \/ (snd r1 < match_threshold)%Q)
  /\
  (res_ran_fallback r = true ->
   (res_match r, res_score r)
   = find_best unique_addr facility_name (all_candidates idx))
  /\
  (res_ran_fallback r = false -> (res_match r, res_score r) = r1)
  /\
  (forall key bucket c,
      In (key, bucket) idx -> In c bucket -> In c (all_candidates idx))
  /\
  (forall bucket,
      index_get NO_STATE idx = Some bucket -> incl bucket (all_candidates idx))
  /\
  (forall c, In c (all_candidates idx) ->
             exists key bucket, In (key, bucket) idx /\ In c bucket).
Proof.
  intros r1 r. split; [reflexivity|].
  assert (Hran : res_ran_fallback r = needs_fallback r1).
  { unfold r, resolve. fold r1. now destruct (needs_fallback r1). }
  split; [|split; [|split; [|split; [|split]]]].
  - rewrite Hran. unfold needs_fallback. rewrite orb_true_iff, Qltb_lt.
    destruct (fst r1); simpl; split; intros [H|H]; auto; discriminate.
  - unfold r, resolve. fold r1. destruct (needs_fallback r1); simpl.
    + intros _. unfold fallback_phase.
      now destruct (find_best unique_addr facility_name (all_candidates idx)).
    + discriminate.
  - unfold r, resolve. fold r1. destruct (needs_fallback r1); simpl.
    + discriminate.
    + intros _. now destruct r1.
  - intros; eapply all_candidates_bucket; eauto.
  - intros; eapply index_get_incl; eauto.
  - apply all_candidates_origin.
Qed.


(** The Corporations resolution keeps a candidate only at or above the
    threshold, and otherwise reports score 0. *)
Lemma resolve_corporations_cases
  (D : Type) (facility_name : str) (cands : list (candidate D)) :
  let r := resolve_corporations USE_RAPIDFUZZ token_set_ratio sequence_ratio
                                facility_name cands in
  (res_match r = None /\ res_score r = 0%Q) \/
  (exists m, res_match r = Some m /\ (match_threshold <= res_score r)%Q).
Proof.
  unfold resolve_corporations. destruct cands as [|c rest]; [now left|].
  destruct (best_scan _ (c :: rest) None 0) as [m s].
  unfold accepted. simpl. destruct m as [m|]; simpl; [|now left].
  destruct (Qgeb s match_threshold) eqn:E; simpl; [|now left].
  right. exists m. split; auto. now apply Qgeb_le.
Qed.

End MatchingFacts.



(** Two candidates scoring 0.6 and 0.61 under the sample back end. *)
Lemma find_best_match_combined_first_maximum_witness :
  find_best_match_combined true Sample.ratio Sample.ratio (py "T") []
    [(py "A", [], 1%nat); (py "B", [], 2%nat)]
  = (Some 2%nat,
     combined_similarity_score true Sample.ratio Sample.ratio (py "T") [] (py "B") []).
Proof.
  apply (proj2 (proj2 (proj2
           (find_best_match_combined_first_maximum true Sample.ratio Sample.ratio
              (py "T") [] [(py "A", [], 1%nat); (py "B", [], 2%nat)])))
           (py "A", [], 1%nat) (py "B", [], 2%nat) eq_refl);
    vm_compute; reflexivity.
Defined.

(** A target whose state-filtered score is 0.4: the fallback runs and its
    result is reported. *)
Lemma fallback_runs_iff_filtered_rejected_witness :
  let r := resolve true Sample.ratio Sample.ratio (Some (py "TX"))
                   Sample.oak_target [] Sample.two_bucket_index in
  res_ran_fallback r = true /\
  (res_match r, res_score r)
  = find_best_match_combined true Sample.ratio Sample.ratio Sample.oak_target []
      (all_candidates Sample.two_bucket_index).
Proof.
  intros r.
  destruct (fallback_runs_iff_filtered_rejected true Sample.ratio Sample.ratio
              (Some (py "TX")) Sample.oak_target [] Sample.two_bucket_index)
    as (_ & Hiff & Hfb & _).
  assert (Hran : res_ran_fallback r = true).
  { apply Hiff. right. vm_compute. reflexivity. }
  split; [exact Hran | exact (Hfb Hran)].
Defined.

(* ================================================================== *)
(** * The output row *)
(* ================================================================== *)




Section PipelineFacts.

Variable USE_RAPIDFUZZ : bool.
Variable token_set_ratio : str -> str -> Q.
Variable sequence_ratio : str -> str -> Q.
Variable hubspot_by_state : index hubspot_data.
Variable clickup_by_state : index clickup_data.
Variable corporations_candidates : list (candidate corporations_data).

Local Abbreviation target_row :=
  (match_target USE_RAPIDFUZZ token_set_ratio sequence_ratio
                hubspot_by_state clickup_by_state corporations_candidates).
Local Abbreviation hs_of :=
  (resolve_hubspot USE_RAPIDFUZZ token_set_ratio sequence_ratio hubspot_by_state).
Local Abbreviation cu_of :=
  (resolve_clickup USE_RAPIDFUZZ token_set_ratio sequence_ratio clickup_by_state).
Local Abbreviation corp_of :=
  (resolve_corp USE_RAPIDFUZZ token_set_ratio sequence_ratio corporations_candidates).


End PipelineFacts.

(** Every row of the output is the row of one target. *)
Lemma match_all_rows (USE_RAPIDFUZZ : bool) (token_set_ratio sequence_ratio : str -> str -> Q)
  (hubspot_by_state : index hubspot_data) (clickup_by_state : index clickup_data)
  (corporations_candidates : list (candidate corporations_data))
  (targets : list (str * str)) :
  forall st row,
    In row (fst (match_all USE_RAPIDFUZZ token_set_ratio sequence_ratio
                           hubspot_by_state clickup_by_state
                           corporations_candidates st targets)) ->
    exists st' unique_addr facility,
      In (unique_addr, facility) targets /\
      row = fst (match_target USE_RAPIDFUZZ token_set_ratio sequence_ratio
                              hubspot_by_state clickup_by_state
                              corporations_candidates st' unique_addr facility).
Proof.
  induction targets as [|[ua fac] rest IH]; intros st row;
    [intros [] | cbn [match_all]].
  destruct (match_target USE_RAPIDFUZZ token_set_ratio sequence_ratio
              hubspot_by_state clickup_by_state corporations_candidates
              st ua fac) as [r st'] eqn:E.
  destruct (match_all USE_RAPIDFUZZ token_set_ratio sequence_ratio
              hubspot_by_state clickup_by_state corporations_candidates
              st' rest) as [rows st''] eqn:E2.
  cbn [fst In]. intros [<- | Hin].
  - exists st, ua, fac. split; [now left | now rewrite E].
  - specialize (IH st' row). rewrite E2 in IH.
    destruct (IH Hin) as (s1 & a & f & Ht & Hr).
    exists s1, a, f. split; [now right | exact Hr].
Qed.



(* ================================================================== *)
(** * Null and empty input *)
(* ================================================================== *)

(** C8, at an input on which the code departs from it.  On a NaN, the null
    value of an empty sheet cell, state extraction raises [TypeError]
    instead of returning the absent value, while normalisation returns the
    empty string.  On [None] and on the empty string both behave as C8 says:
    extraction returns the absent value and normalisation the empty string. *)
Theorem extract_state_raises_on_nan :
  extract_state_from_address PyNaN = RaisesTypeError /\
  normalize_address PyNaN = [] /\
  extract_state_from_address PyNone = Returns None /\
  extract_state_from_address (PyStr []) = Returns None /\
  normalize_address PyNone = [] /\
  normalize_address (PyStr []) = [].
Proof. repeat split; reflexivity. Qed.

(** State extraction returns on every argument that is not a NaN. *)
Lemma extract_state_returns (addr : pyobj) :
  addr <> PyNaN -> exists r, extract_state_from_address addr = Returns r.
Proof.
  destruct addr; [eexists; reflexivity | congruence | eexists; reflexivity].
Qed.

(* ================================================================== *)
(** * The pattern matcher *)
(* ================================================================== *)

Module ReFacts.

Lemma try_counts_none (A : Type) (k : nat -> option A) (lo n : nat) :
  try_counts k lo n = None <-> forall j, lo <= j <= n -> k j = None.
Proof.
  induction n as [|n IH]; simpl.
  - destruct lo; simpl.
    + destruct (k 0) eqn:E; split; try discriminate; auto.
      * intros H. rewrite <- E. apply H. lia.
      * intros _ j Hj. assert (j = 0) by lia. now subst.
    + split; auto. intros _ j Hj. lia.
  - destruct (S n <? lo) eqn:Hlo.
    + apply Nat.ltb_lt in Hlo. split; auto. intros _ j Hj. lia.
    + apply Nat.ltb_ge in Hlo. destruct (k (S n)) eqn:E.
      * split; [discriminate|]. intros H. rewrite <- E. apply H. lia.
      * rewrite IH. split.
        -- intros H j Hj. destruct (Nat.eq_dec j (S n)) as [->|Hne]; auto.
           apply H. lia.
        -- intros H j Hj. apply H. lia.
Qed.

Lemma try_counts_some (A : Type) (k : nat -> option A) (lo n : nat) (r : A) :
  try_counts k lo n = Some r -> exists j, lo <= j <= n /\ k j = Some r.
Proof.
  induction n as [|n IH]; simpl.
  - destruct (0 <? lo) eqn:Hlo; [discriminate|]. apply Nat.ltb_ge in Hlo.
    destruct (k 0) eqn:E; [|discriminate]. intros [= <-]. exists 0. split; auto.
  - destruct (S n <? lo) eqn:Hlo; [discriminate|]. apply Nat.ltb_ge in Hlo.
    destruct (k (S n)) eqn:E.
    + intros [= <-]. exists (S n). split; auto.
    + intros H. destruct (IH H) as (j & Hj & Hk). exists j. split; auto. lia.
Qed.

Lemma count_prefix_firstn (cls : ascii -> bool) (s : str) :
  forall hi j, j <= count_prefix cls hi s ->
               Forall (fun c => cls c = true) (firstn j s) /\ j <= List.length s.
Proof.
  induction s as [|c s IH]; intros hi j Hj.
  - assert (j = 0) by (destruct hi as [[|h]|]; simpl in Hj; lia). subst.
    simpl. split; auto.
  - destruct j as [|j]; [simpl; split; [constructor | lia]|].
    assert (Hc : cls c = true /\ j <= count_prefix cls (option_map pred hi) s).
    { destruct hi as [[|h]|]; simpl in *; try lia;
        destruct (cls c); try lia; split; auto; lia. }
    destruct Hc as [Hc Hj']. destruct (IH _ _ Hj') as [HF Hl].
    simpl. split; [constructor; auto | lia].
Qed.

Lemma count_prefix_bound (cls : ascii -> bool) (s : str) :
  forall h, count_prefix cls (Some h) s <= h.
Proof.
  induction s as [|c s IH]; intros [|h]; simpl; try lia.
  destruct (cls c); [|lia]. specialize (IH h). lia.
Qed.

Lemma count_prefix_ge (cls : ascii -> bool) (pre rest : str) :
  Forall (fun c => cls c = true) pre ->
  List.length pre <= count_prefix cls None (pre ++ rest).
Proof.
  induction 1 as [|c pre Hc HF IH]; simpl; [lia|].
  rewrite Hc. lia.
Qed.

Lemma match_here_lit (c : ascii) (p : pattern) (prev : option ascii) (cur : str) :
  match_here (lit c :: p) prev cur =
  match cur with
  | x :: cur' =>
      if Ascii.eqb c x
      then option_map (shift 1) (match_here p (Some x) cur')
      else None
  | [] => None
  end.
Proof.
  unfold lit. destruct cur as [|x cur']; [reflexivity|].
  cbn [match_here count_prefix option_map pred].
  destruct (Ascii.eqb c x); [|reflexivity].
  assert (E : count_prefix (Ascii.eqb c) (Some 0) cur' = 0)
    by (destruct cur'; reflexivity).
  rewrite E. cbn [try_counts Nat.ltb Nat.leb prev_after nth_error skipn].
  now destruct (match_here p (Some x) cur').
Qed.

(** A literal text followed by [$] matches the strings that are the text,
    possibly followed by anything [$] accepts. *)
Lemma match_literal_end_sound (w : str) :
  forall prev cur r,
    match_here (map lit w ++ [EndOfString]) prev cur = Some r ->
    consumed r = List.length w /\
    exists tail, cur = w ++ tail /\ at_end tail = true.
Proof.
  induction w as [|c w IH]; intros prev cur r.
  - simpl. destruct (at_end cur) eqn:E; [|discriminate]. intros [= <-].
    split; auto. exists cur. auto.
  - cbn [map app]. rewrite match_here_lit.
    destruct cur as [|x cur']; [discriminate|].
    destruct (Ascii.eqb c x) eqn:E; [|discriminate].
    apply Ascii.eqb_eq in E. subst x.
    destruct (match_here (map lit w ++ [EndOfString]) (Some c) cur') as [r'|] eqn:M;
      [|discriminate].
    intros [= <-]. destruct (IH _ _ _ M) as (Hc & tail & -> & Ht).
    simpl. split; [lia|]. exists tail. auto.
Qed.

Lemma match_literal_end_complete (w : str) :
  forall prev, match_here (map lit w ++ [EndOfString]) prev w
               = Some (MResult (List.length w) None None).
Proof.
  induction w as [|c w IH]; intros prev; [reflexivity|].
  cbn [map app]. rewrite match_here_lit, Ascii.eqb_refl, IH. reflexivity.
Qed.

(** What [,?\s*] followed by a pattern [q] matches. *)
Lemma match_comma_space_sound (q : pattern) (prev : option ascii) (cur : str)
  (r : mresult) :
  match_here (opt (Ascii.eqb ","%char) :: star isspace :: q) prev cur = Some r ->
  exists pre rest prev' rq,
    cur = pre ++ rest /\ comma_space pre /\
    match_here q prev' rest = Some rq /\
    consumed r = List.length pre + consumed rq.
Proof.
  unfold opt, star. cbn [match_here]. intros H.
  apply try_counts_some in H. destruct H as (j & [_ Hj] & H).
  destruct (try_counts _ 0 _) as [r1|] eqn:H1; [|discriminate].
  injection H as <-.
  apply try_counts_some in H1. destruct H1 as (i & [_ Hi] & H1).
  destruct (match_here q _ _) as [rq|] eqn:Hq; [|discriminate].
  injection H1 as <-.
  pose proof (count_prefix_bound (Ascii.eqb ","%char) cur 1) as Hb.
  destruct (@count_prefix_firstn _ _ _ _ Hj) as [HFj Hlj].
  destruct (@count_prefix_firstn _ _ _ _ Hi) as [HFi Hli].
  exists (firstn j cur ++ firstn i (skipn j cur)), (skipn i (skipn j cur)).
  eexists. exists rq. split; [|split; [|split; [exact Hq|]]].
  - now rewrite <- app_assoc, !firstn_skipn.
  - exists (firstn i (skipn j cur)). split; auto.
    destruct j as [|[|j]]; [now left | | lia].
    right. destruct cur as [|c cur']; [simpl in Hlj; lia|].
    cbn [firstn] in HFj. inversion HFj as [|? ? Hc _]; subst.
    apply Ascii.eqb_eq in Hc. subst c. reflexivity.
  - simpl. rewrite length_app, !length_firstn, length_skipn.
    rewrite length_skipn in Hli. lia.
Qed.

Lemma match_comma_space_complete (q : pattern) (prev : option ascii)
  (pre rest : str) :
  comma_space pre ->
  (forall prev', match_here q prev' rest <> None) ->
  match_here (opt (Ascii.eqb ","%char) :: star isspace :: q) prev (pre ++ rest)
  <> None.
Proof.
  intros (ws & HF & Hpre) Hq H.
  unfold opt, star in H. cbn [match_here] in H.
  rewrite try_counts_none in H.
  assert (Hstar : forall prev' , try_counts
             (fun k => option_map (shift k)
                         (match_here q (prev_after prev' (ws ++ rest) k)
                                     (skipn k (ws ++ rest))))
             0 (count_prefix isspace None (ws ++ rest)) <> None).
  { intros prev' Hn. rewrite try_counts_none in Hn.
    specialize (Hn (List.length ws)).
    rewrite skipn_app, skipn_all, Nat.sub_diag in Hn. simpl in Hn.
    destruct (match_here q (prev_after prev' (ws ++ rest) (List.length ws)) rest) eqn:E.
    - discriminate Hn. split; [lia | now apply count_prefix_ge].
    - now apply Hq in E. }
  destruct Hpre as [-> | ->].
  - specialize (H 0). cbn [prev_after skipn] in H.
    destruct (try_counts _ 0 (count_prefix isspace None (ws ++ rest))) eqn:E.
    + discriminate H. lia.
    + now apply Hstar in E.
  - specialize (H 1). cbn [prev_after skipn nth_error app] in H.
    destruct (try_counts _ 0 (count_prefix isspace None (ws ++ rest))) eqn:E.
    + discriminate H. simpl. lia.
    + now apply Hstar in E.
Qed.

End ReFacts.

(* ================================================================== *)
(** * The state patterns *)
(* ================================================================== *)

Module PatternFacts.
Import ReFacts.

Lemma try_counts_first (A : Type) (k : nat -> option A) (lo n : nat) (r : A) :
  lo <= n -> k n = Some r -> try_counts k lo n = Some r.
Proof.
  intros Hlo Hk. destruct n as [|n]; simpl.
  - assert (lo = 0) by lia. subst. simpl. now rewrite Hk.
  - assert (E : (S n <? lo) = false) by (apply Nat.ltb_ge; lia).
    now rewrite E, Hk.
Qed.

Lemma count_prefix_unbounded (cls : ascii -> bool) (pre rest : str) :
  all_in cls pre ->
  match rest with [] => True | c :: _ => cls c = false end ->
  count_prefix cls None (pre ++ rest) = List.length pre.
Proof.
  intros Hpre Hrest. induction Hpre as [|c pre Hc HF IH]; simpl.
  - destruct rest as [|c rest]; simpl; auto. now rewrite Hrest.
  - now rewrite Hc, IH.
Qed.

Lemma count_prefix_bounded (cls : ascii -> bool) (pre rest : str) :
  all_in cls pre ->
  count_prefix cls (Some (List.length pre)) (pre ++ rest) = List.length pre.
Proof.
  intros Hpre. induction Hpre as [|c pre Hc HF IH]; simpl.
  - now destruct rest.
  - now rewrite Hc, IH.
Qed.

Lemma match_rep_sound (cls : ascii -> bool) (lo : nat) (hi : option nat)
  (p : pattern) (prev : option ascii) (cur : str) (r : mresult) :
  match_here (Rep cls lo hi :: p) prev cur = Some r ->
  exists pre rest prev' r',
    cur = pre ++ rest /\ all_in cls pre /\ lo <= List.length pre /\
    (forall h, hi = Some h -> List.length pre <= h) /\
    match_here p prev' rest = Some r' /\ r = shift (List.length pre) r'.
Proof.
  cbn [match_here]. intros H. apply try_counts_some in H.
  destruct H as (k & [Hlo Hk] & H).
  destruct (match_here p _ _) as [r'|] eqn:E; [|discriminate].
  injection H as <-.
  destruct (@count_prefix_firstn _ _ _ _ Hk) as [HF Hlen].
  exists (firstn k cur), (skipn k cur). eexists. exists r'.
  assert (Hl : List.length (firstn k cur) = k) by (rewrite length_firstn; lia).
  rewrite Hl. repeat split; auto.
  - now rewrite firstn_skipn.
  - intros h ->. pose proof (count_prefix_bound cls cur h). lia.
  - exact E.
Qed.

Lemma match_rep_exact (cls : ascii -> bool) (lo : nat) (hi : option nat)
  (p : pattern) (prev : option ascii) (pre rest : str) (r : mresult) :
  lo <= List.length pre ->
  count_prefix cls hi (pre ++ rest) = List.length pre ->
  (forall prev', match_here p prev' rest = Some r) ->
  match_here (Rep cls lo hi :: p) prev (pre ++ rest)
  = Some (shift (List.length pre) r).
Proof.
  intros Hlo Hcount Hp. cbn [match_here]. rewrite Hcount.
  apply try_counts_first; auto.
  rewrite skipn_app, skipn_all, Nat.sub_diag. simpl. now rewrite Hp.
Qed.

Lemma digit_not_space (c : ascii) : isdigit c = true -> isspace c = false.
Proof. destruct c as [[] [] [] [] [] [] [] []]; vm_compute; congruence. Qed.

Lemma letter_not_space (c : ascii) : isletter c = true -> isspace c = false.
Proof. destruct c as [[] [] [] [] [] [] [] []]; vm_compute; congruence. Qed.

Lemma letter_is_word (c : ascii) : isletter c = true -> isword c = true.
Proof. destruct c as [[] [] [] [] [] [] [] []]; vm_compute; congruence. Qed.


Lemma all_in_head_false (cls cls' : ascii -> bool) (d rest : str) :
  (forall c, cls' c = true -> cls c = false) ->
  all_in cls' d -> d <> [] ->
  match d ++ rest with [] => True | c :: _ => cls c = false end.
Proof.
  intros Hd HF Hne. destruct d as [|c d]; [contradiction|]. simpl.
  inversion HF; subst. auto.
Qed.

Lemma match_here_open (p : pattern) (prev : option ascii) (cur : str) :
  match_here (GroupOpen :: p) prev cur
  = option_map (fun r => MResult (consumed r) (Some 0) (gclose r))
               (match_here p prev cur).
Proof. reflexivity. Qed.

Lemma match_here_close (p : pattern) (prev : option ascii) (cur : str) :
  match_here (GroupClose :: p) prev cur
  = option_map (fun r => MResult (consumed r) (gopen r) (Some 0))
               (match_here p prev cur).
Proof. reflexivity. Qed.

Lemma match_here_boundary (p : pattern) (prev : option ascii) (cur : str) :
  match_here (WordBoundary :: p) prev cur
  = if at_boundary prev cur then match_here p prev cur else None.
Proof. reflexivity. Qed.

(** ** The parts of the state patterns *)

Lemma zip_tail_sound (prev : option ascii) (cur : str) (r : mresult) :
  match_here [plus isspace; exactly 5 isdigit] prev cur = Some r ->
  exists ws' d rest,
    cur = ws' ++ d ++ rest /\ ws' <> [] /\ all_in isspace ws' /\
    List.length d = 5 /\ all_in isdigit d /\
    r = MResult (List.length ws' + 5) None None.
Proof.
  unfold plus, exactly. intros H.
  apply match_rep_sound in H.
  destruct H as (ws' & rest1 & prev1 & r1 & -> & Hws & Hlo & _ & H & ->).
  apply match_rep_sound in H.
  destruct H as (d & rest & prev2 & r2 & -> & Hd & Hlo2 & Hhi2 & H & ->).
  simpl in H. injection H as <-.
  specialize (Hhi2 5 eq_refl).
  assert (Hlen : List.length d = 5) by lia.
  exists ws', d, rest. repeat split; auto.
  - intros ->. simpl in Hlo. lia.
  - rewrite Hlen. reflexivity.
Qed.

Lemma zip_tail_exact (ws' d rest : str) :
  ws' <> [] -> all_in isspace ws' -> List.length d = 5 -> all_in isdigit d ->
  forall prev,
    match_here [plus isspace; exactly 5 isdigit] prev (ws' ++ d ++ rest)
    = Some (MResult (List.length ws' + 5) None None).
Proof.
  intros Hne Hws Hlen Hd prev. unfold plus, exactly.
  rewrite (@match_rep_exact isspace 1 None _ prev ws' (d ++ rest)
             (MResult 5 None None)).
  - reflexivity.
  - destruct ws'; [contradiction | simpl; lia].
  - apply count_prefix_unbounded; auto.
    apply (@all_in_head_false isspace isdigit); auto using digit_not_space.
    intros ->. discriminate.
  - intros prev'. rewrite <- Hlen at 1 2.
    rewrite (@match_rep_exact isdigit (List.length d) (Some (List.length d)) []
               prev' d rest (MResult 0 None None)); auto.
    + rewrite Hlen. reflexivity.
    + now apply count_prefix_bounded.
Qed.

Lemma comma_tail_sound (prev : option ascii) (cur : str) (r : mresult) :
  match_here [star isspace; lit ","%char] prev cur = Some r ->
  exists ws' rest,
    cur = ws' ++ ","%char :: rest /\ all_in isspace ws' /\
    r = MResult (List.length ws' + 1) None None.
Proof.
  unfold star. intros H.
  apply match_rep_sound in H.
  destruct H as (ws' & rest1 & prev1 & r1 & -> & Hws & _ & _ & H & ->).
  rewrite match_here_lit in H. destruct rest1 as [|x rest]; [discriminate|].
  destruct (Ascii.eqb "," x) eqn:E; [|discriminate].
  apply Ascii.eqb_eq in E. subst x. simpl in H. injection H as <-.
  exists ws', rest. repeat split; auto.
Qed.

Lemma comma_tail_exact (ws' rest : str) :
  all_in isspace ws' ->
  forall prev,
    match_here [star isspace; lit ","%char] prev (ws' ++ ","%char :: rest)
    = Some (MResult (List.length ws' + 1) None None).
Proof.
  intros Hws prev. unfold star.
  rewrite (@match_rep_exact isspace 0 None _ prev ws' (","%char :: rest)
             (MResult 1 None None)).
  - reflexivity.
  - lia.
  - apply count_prefix_unbounded; auto.
  - intros prev'. rewrite match_here_lit, Ascii.eqb_refl. reflexivity.
Qed.

Lemma group_sound (tail : pattern) (prev : option ascii) (cur : str) (r : mresult) :
  match_here (GroupOpen :: exactly 2 isletter :: GroupClose :: tail) prev cur
  = Some r ->
  exists g rest prev' rt,
    cur = g ++ rest /\ List.length g = 2 /\ all_in isletter g /\
    match_here tail prev' rest = Some rt /\
    r = MResult (2 + consumed rt) (Some 0) (Some 2).
Proof.
  rewrite match_here_open. unfold exactly.
  destruct (match_here (Rep isletter 2 (Some 2) :: GroupClose :: tail) prev cur)
    as [r1|] eqn:H; [|discriminate].
  intros [= <-]. apply match_rep_sound in H.
  destruct H as (g & rest & prev' & r2 & -> & Hg & Hlo & Hhi & H & ->).
  specialize (Hhi 2 eq_refl). assert (Hlen : List.length g = 2) by lia.
  rewrite match_here_close in H.
  destruct (match_here tail prev' rest) as [rt|] eqn:Ht; [|discriminate].
  injection H as <-.
  exists g, rest, prev', rt. repeat split; auto.
  rewrite Hlen. reflexivity.
Qed.

Lemma group_exact (tail : pattern) (g rest : str) (rt : mresult) :
  List.length g = 2 -> all_in isletter g ->
  (forall prev', match_here tail prev' rest = Some rt) ->
  forall prev,
    match_here (GroupOpen :: exactly 2 isletter :: GroupClose :: tail) prev
               (g ++ rest)
    = Some (MResult (2 + consumed rt) (Some 0) (Some 2)).
Proof.
  intros Hlen Hg Ht prev. rewrite match_here_open. unfold exactly.
  rewrite <- Hlen at 1 2.
  rewrite (@match_rep_exact isletter (List.length g) (Some (List.length g))
             (GroupClose :: tail) prev g rest
             (MResult (consumed rt) (gopen rt) (Some 0))); auto.
  - rewrite Hlen. reflexivity.
  - now apply count_prefix_bounded.
  - intros prev'. rewrite match_here_close. now rewrite Ht.
Qed.

Lemma comma_head_sound (q : pattern) (prev : option ascii) (cur : str)
  (r : mresult) :
  match_here (lit ","%char :: star isspace :: q) prev cur = Some r ->
  exists ws rest prev' rq,
    cur = ","%char :: ws ++ rest /\ all_in isspace ws /\
    match_here q prev' rest = Some rq /\
    r = shift 1 (shift (List.length ws) rq).
Proof.
  rewrite match_here_lit. destruct cur as [|x cur1]; [discriminate|].
  destruct (Ascii.eqb "," x) eqn:E; [|discriminate].
  apply Ascii.eqb_eq in E. subst x.
  destruct (match_here (star isspace :: q) (Some ","%char) cur1) as [r1|] eqn:H;
    [|discriminate].
  intros [= <-]. unfold star in H. apply match_rep_sound in H.
  destruct H as (ws & rest & prev' & rq & -> & Hws & _ & _ & H & ->).
  exists ws, rest, prev', rq. auto.
Qed.

Lemma comma_head_exact (q : pattern) (ws rest : str) (rq : mresult) :
  all_in isspace ws ->
  match rest with [] => True | c :: _ => isspace c = false end ->
  (forall prev', match_here q prev' rest = Some rq) ->
  forall prev,
    match_here (lit ","%char :: star isspace :: q) prev (","%char :: ws ++ rest)
    = Some (shift 1 (shift (List.length ws) rq)).
Proof.
  intros Hws Hrest Hq prev. rewrite match_here_lit, Ascii.eqb_refl.
  unfold star.
  rewrite (@match_rep_exact isspace 0 None q (Some ","%char) ws rest rq); auto.
  - lia.
  - now apply count_prefix_unbounded.
Qed.

(** The group of a match that follows a comma and white space. *)
Lemma group1_after_comma (ws g tail : str) (n : nat) :
  List.length g = 2 ->
  group1 (","%char :: ws ++ g ++ tail)
         (shift 1 (shift (List.length ws) (MResult n (Some 0) (Some 2)))) = g.
Proof.
  intros Hlen. unfold group1, shift. cbn [gopen gclose option_map].
  replace (1 + (List.length ws + 2) - (1 + (List.length ws + 0))) with 2 by lia.
  replace (1 + (List.length ws + 0)) with (S (List.length ws)) by lia.
  cbn [skipn]. rewrite skipn_app, skipn_all, Nat.sub_diag. cbn [skipn app].
  rewrite <- Hlen, firstn_app, Nat.sub_diag, firstn_all. simpl.
  now rewrite app_nil_r.
Qed.

Lemma group1_at_start (g tail : str) (n : nat) :
  List.length g = 2 ->
  group1 (g ++ tail) (MResult n (Some 0) (Some 2)) = g.
Proof.
  intros Hlen. unfold group1. cbn [gopen gclose skipn Nat.sub].
  rewrite <- Hlen, firstn_app, Nat.sub_diag, firstn_all. simpl.
  now rewrite app_nil_r.
Qed.


Lemma two_letters_head (g rest : str) :
  List.length g = 2 -> all_in isletter g ->
  match g ++ rest with [] => True | c :: _ => isspace c = false end.
Proof.
  intros Hlen Hg.
  apply (@all_in_head_false isspace isletter); auto using letter_not_space.
  intros ->. discriminate.
Qed.

(** ** What each state pattern matches *)

Lemma comma_state_zip_matches (prev : option ascii) (cur g : str) :
  (exists r, match_here pattern_comma_state_zip prev cur = Some r /\
             group1 cur r = g) <->
  (exists t rest, cur = t ++ rest /\ comma_state_zip_text prev t g).
Proof.
  unfold pattern_comma_state_zip. split.
  - intros (r & H & <-). apply comma_head_sound in H.
    destruct H as (ws & rest1 & prev1 & rq & -> & Hws & H & ->).
    apply group_sound in H.
    destruct H as (g & rest2 & prev2 & rt & -> & Hlen & Hg & H & ->).
    apply zip_tail_sound in H.
    destruct H as (ws' & d & rest & -> & Hne & Hws' & Hd & Hdd & ->).
    rewrite group1_after_comma by exact Hlen.
    exists (","%char :: ws ++ g ++ ws' ++ d), rest. split.
    + cbn [app]. now rewrite <- !app_assoc.
    + exists ws, ws', d. repeat split; auto.
  - intros (t & rest & -> & ws & ws' & d & -> & Hws & Hlen & Hg & Hne & Hws' & Hd & Hdd).
    cbn [app]. rewrite <- !app_assoc.
    eexists. split.
    + apply comma_head_exact; auto.
      * now apply two_letters_head.
      * intros prev'. apply group_exact; auto.
        intros prev''. now apply zip_tail_exact.
    + now apply group1_after_comma.
Qed.

Lemma comma_state_comma_matches (prev : option ascii) (cur g : str) :
  (exists r, match_here pattern_comma_state_comma prev cur = Some r /\
             group1 cur r = g) <->
  (exists t rest, cur = t ++ rest /\ comma_state_comma_text prev t g).
Proof.
  unfold pattern_comma_state_comma. split.
  - intros (r & H & <-). apply comma_head_sound in H.
    destruct H as (ws & rest1 & prev1 & rq & -> & Hws & H & ->).
    apply group_sound in H.
    destruct H as (g & rest2 & prev2 & rt & -> & Hlen & Hg & H & ->).
    apply comma_tail_sound in H.
    destruct H as (ws' & rest & -> & Hws' & ->).
    rewrite group1_after_comma by exact Hlen.
    exists (","%char :: ws ++ g ++ ws' ++ [","%char]), rest. split.
    + cbn [app]. now rewrite <- !app_assoc.
    + exists ws, ws'. repeat split; auto.
  - intros (t & rest & -> & ws & ws' & -> & Hws & Hlen & Hg & Hws').
    cbn [app]. rewrite <- !app_assoc. cbn [app].
    eexists. split.
    + apply comma_head_exact; auto.
      * now apply two_letters_head.
      * intros prev'. apply group_exact; auto.
        intros prev''. now apply comma_tail_exact.
    + now apply group1_after_comma.
Qed.

Lemma word_state_zip_matches (prev : option ascii) (cur g : str) :
  (exists r, match_here pattern_word_state_zip prev cur = Some r /\
             group1 cur r = g) <->
  (exists t rest, cur = t ++ rest /\ word_state_zip_text prev t g).
Proof.
  unfold pattern_word_state_zip. rewrite match_here_boundary. split.
  - intros (r & H & <-).
    destruct (at_boundary prev cur) eqn:Hb; [|discriminate].
    apply group_sound in H.
    destruct H as (g & rest2 & prev2 & rt & -> & Hlen & Hg & H & ->).
    apply zip_tail_sound in H.
    destruct H as (ws' & d & rest & -> & Hne & Hws' & Hd & Hdd & ->).
    rewrite group1_at_start by exact Hlen.
    exists (g ++ ws' ++ d), rest. split; [now rewrite <- !app_assoc|].
    split.
    + unfold at_boundary in Hb. destruct g as [|c g]; [discriminate|].
      inversion Hg; subst. cbn [app hd_error is_word_opt] in Hb.
      rewrite (letter_is_word _ H1) in Hb. now destruct (is_word_opt prev).
    + exists ws', d. repeat split; auto.
  - intros (t & rest & -> & Hprev & ws' & d & -> & Hlen & Hg & Hne & Hws' & Hd & Hdd).
    rewrite <- !app_assoc.
    assert (Hb : at_boundary prev (g ++ ws' ++ d ++ rest) = true).
    { unfold at_boundary. rewrite Hprev. destruct g as [|c g]; [discriminate|].
      inversion Hg; subst. cbn [app hd_error is_word_opt].
      now rewrite (letter_is_word _ H1). }
    rewrite Hb. eexists. split.
    + apply group_exact; auto. intros prev'. now apply zip_tail_exact.
    + now apply group1_at_start.
Qed.

(** ** The leftmost match *)


Lemma before_cons (prev : option ascii) (c : ascii) (pre : str) :
  before prev (c :: pre) = before (Some c) pre.
Proof.
  unfold before, last_char. simpl.
  destruct (rev pre) as [|x r]; reflexivity.
Qed.

(** [search_from] returns the group of the match at the first position
    where the pattern matches. *)
Lemma search_from_leftmost (p : pattern) (cur : str) :
  forall prev g,
    search_from p prev cur = Some g <->
    exists pre rest r,
      cur = pre ++ rest /\
      match_here p (before prev pre) rest = Some r /\ group1 rest r = g /\
      forall pre' rest',
        cur = pre' ++ rest' -> List.length pre' < List.length pre ->
        match_here p (before prev pre') rest' = None.
Proof.
  induction cur as [|c cur IH]; intros prev g.
  - simpl. split.
    + destruct (match_here p prev []) as [r|] eqn:E; [|discriminate].
      intros [= <-]. exists [], [], r. repeat split; auto.
      intros pre' rest' _ Hl. simpl in Hl. lia.
    + intros (pre & rest & r & Hcur & Hm & Hg & _).
      symmetry in Hcur. apply app_eq_nil in Hcur. destruct Hcur as [-> ->].
      unfold before, last_char in Hm. simpl in Hm. now rewrite Hm, Hg.
  - cbn [search_from].
    destruct (match_here p prev (c :: cur)) as [r|] eqn:E.
    + split.
      * intros [= <-]. exists [], (c :: cur), r. repeat split; auto.
        intros pre' rest' _ Hl. simpl in Hl. lia.
      * intros (pre & rest & r' & Hcur & Hm & Hg & Hleft).
        destruct pre as [|x pre].
        -- simpl in Hcur. subst rest. unfold before, last_char in Hm.
           simpl in Hm. congruence.
        -- specialize (Hleft [] (c :: cur) eq_refl).
           unfold before, last_char in Hleft. simpl in Hleft.
           rewrite Hleft in E; [discriminate | lia].
    + rewrite IH. split.
      * intros (pre & rest & r & -> & Hm & Hg & Hleft).
        exists (c :: pre), rest, r. rewrite before_cons. repeat split; auto.
        intros [|x pre'] rest' Hcur Hl.
        -- simpl in Hcur. subst rest'. exact E.
        -- simpl in Hcur. injection Hcur as -> Hcur. rewrite before_cons.
           apply Hleft; auto. simpl in Hl. lia.
      * intros (pre & rest & r & Hcur & Hm & Hg & Hleft).
        destruct pre as [|x pre].
        -- simpl in Hcur. subst rest. unfold before, last_char in Hm.
           simpl in Hm. congruence.
        -- simpl in Hcur. injection Hcur as <- ->.
           exists pre, rest, r. rewrite before_cons in Hm. repeat split; auto.
           intros pre' rest' Hcur' Hl.
           specialize (Hleft (c :: pre') rest').
           rewrite before_cons in Hleft. apply Hleft.
           ++ simpl. now rewrite Hcur'.
           ++ simpl. lia.
Qed.

End PatternFacts.

(* ================================================================== *)
(** * State extraction *)
(* ================================================================== *)

Lemma is_us_state_In (s : str) : is_us_state s = true <-> In s us_states.
Proof.
  unfold is_us_state. rewrite existsb_exists. split.
  - intros (x & Hx & E). apply str_eqb_eq in E. now subst.
  - intros H. exists s. split; auto. now apply str_eqb_eq.
Qed.


Lemma yields_spec (p : pattern) (addr s : str) :
  yields p addr = Some s <->
  exists g, search p addr = Some g /\ s = upper g /\ In s us_states.
Proof.
  unfold yields. destruct (search p addr) as [g|].
  - destruct (is_us_state (upper g)) eqn:E.
    + split.
      * intros [= <-]. exists g. repeat split; auto. now apply is_us_state_In.
      * intros (g' & [= <-] & -> & _). reflexivity.
    + split; [discriminate|].
      intros (g' & [= <-] & -> & Hin). apply is_us_state_In in Hin. congruence.
  - split; [discriminate|]. intros (g' & H & _). discriminate.
Qed.

Lemma scan_patterns_cons (p : pattern) (ps : list pattern) (addr : str) :
  scan_patterns (p :: ps) addr =
  match yields p addr with
  | Some s => Some s
  | None => scan_patterns ps addr
  end.
Proof.
  unfold yields. simpl. destruct (search p addr) as [g|]; auto.
  now destruct (is_us_state (upper g)).
Qed.

(** The loop returns the code of the first pattern that yields one. *)
Lemma scan_patterns_some (ps : list pattern) (addr s : str) :
  scan_patterns ps addr = Some s <->
  exists i p, nth_error ps i = Some p /\ yields p addr = Some s /\
              forall j q, j < i -> nth_error ps j = Some q -> yields q addr = None.
Proof.
  induction ps as [|p ps IH].
  - simpl. split; [discriminate|]. intros ([|i] & q & H & _); discriminate.
  - rewrite scan_patterns_cons. destruct (yields p addr) as [s'|] eqn:E.
    + split.
      * intros [= <-]. exists 0, p. repeat split; auto. intros j q Hj. lia.
      * intros ([|i] & q & Hn & Hy & Hprev).
        -- simpl in Hn. injection Hn as <-. congruence.
        -- specialize (Hprev 0 p (Nat.lt_0_succ i) eq_refl). congruence.
    + rewrite IH. split.
      * intros (i & q & Hn & Hy & Hprev). exists (S i), q. repeat split; auto.
        intros [|j] q' Hj Hq'.
        -- simpl in Hq'. injection Hq' as <-. exact E.
        -- apply (Hprev j q'); [lia | exact Hq'].
      * intros ([|i] & q & Hn & Hy & Hprev).
        -- simpl in Hn. injection Hn as <-. congruence.
        -- exists i, q. repeat split; auto.
           intros j q' Hj Hq'. apply (Hprev (S j) q'); [lia | exact Hq'].
Qed.




(* ================================================================== *)
(** * Trimming, collapsing and suffixes *)
(* ================================================================== *)

Module StrFacts.

Lemma rstrip_spaces (ws : str) :
  Forall (fun c => isspace c = true) ws -> rstrip ws = [].
Proof.
  induction 1 as [|c ws Hc HF IH]; simpl; auto. now rewrite IH, Hc.
Qed.

Lemma rstrip_nil (s : str) :
  rstrip s = [] -> Forall (fun c => isspace c = true) s.
Proof.
  induction s as [|c s IH]; simpl; [constructor|].
  destruct (rstrip s) eqn:E; [|discriminate].
  destruct (isspace c) eqn:Hc; [|discriminate]. auto.
Qed.

(** [rstrip] removes a suffix of white space. *)
Lemma rstrip_prefix (s : str) :
  exists t, s = rstrip s ++ t /\ Forall (fun c => isspace c = true) t.
Proof.
  induction s as [|c s (t & Hs & Ht)]; simpl; [exists []; auto|].
  destruct (rstrip s) as [|x r] eqn:E.
  - destruct (isspace c) eqn:Hc.
    + exists (c :: s). split; auto. constructor; auto. now apply rstrip_nil.
    + exists s. split; auto. now apply rstrip_nil.
  - exists t. split; auto. simpl. now rewrite Hs at 1.
Qed.

Lemma lstrip_suffix (s : str) :
  exists t, s = t ++ lstrip s /\ Forall (fun c => isspace c = true) t.
Proof.
  induction s as [|c s (t & Hs & Ht)]; simpl; [exists []; auto|].
  destruct (isspace c) eqn:Hc.
  - exists (c :: t). split; [simpl; now rewrite <- Hs | constructor; auto].
  - exists []. auto.
Qed.

Lemma drop_comma_prefix (s : str) : exists t, s = drop_comma s ++ t.
Proof.
  induction s as [|c s (t & Hs)]; [exists []; auto|].
  destruct s as [|x s'].
  - simpl. destruct (Ascii.eqb "," c); [exists [c] | exists []]; reflexivity.
  - exists t. change (drop_comma (c :: x :: s')) with (c :: drop_comma (x :: s')).
    cbn [app]. now rewrite <- Hs.
Qed.

Lemma endswith_spec (w s : str) :
  endswith w s = true <-> exists pre, s = pre ++ w.
Proof.
  unfold endswith. rewrite andb_true_iff, str_eqb_eq, Nat.leb_le. split.
  - intros [E _]. exists (firstn (List.length s - List.length w) s).
    rewrite <- E at 2. symmetry. apply firstn_skipn.
  - intros (pre & ->). rewrite length_app.
    replace (List.length pre + List.length w - List.length w)
      with (List.length pre + 0) by lia.
    rewrite skipn_app, Nat.add_0_r, skipn_all. simpl.
    replace (List.length pre - List.length pre) with 0 by lia.
    split; auto. lia.
Qed.

Lemma drop_suffix_app (w pre : str) :
  drop_suffix w (pre ++ w) = drop_comma (rstrip pre).
Proof.
  unfold drop_suffix.
  assert (E : endswith w (pre ++ w) = true) by (apply endswith_spec; eauto).
  rewrite E, length_app.
  replace (List.length pre + List.length w - List.length w)
    with (List.length pre + 0) by lia.
  rewrite firstn_app_2. simpl. now rewrite app_nil_r.
Qed.

Lemma drop_suffix_absent (w s : str) :
  endswith w s = false -> drop_suffix w s = s.
Proof. unfold drop_suffix. now intros ->. Qed.

(** [drop_suffix] removes a suffix. *)
Lemma drop_suffix_prefix (w s : str) : exists t, s = drop_suffix w s ++ t.
Proof.
  destruct (endswith w s) eqn:E.
  - apply endswith_spec in E. destruct E as (pre & ->).
    rewrite drop_suffix_app.
    destruct (rstrip_prefix pre) as (t1 & H1 & _).
    destruct (drop_comma_prefix (rstrip pre)) as (t2 & H2).
    exists (t2 ++ t1 ++ w). rewrite H1 at 1. rewrite H2 at 1.
    now rewrite <- !app_assoc.
  - rewrite drop_suffix_absent; auto. exists []. now rewrite app_nil_r.
Qed.

Lemma comma_space_dropped (pre : str) :
  comma_space pre -> drop_comma (rstrip pre) = [].
Proof.
  intros (ws & HF & [-> | ->]).
  - now rewrite rstrip_spaces.
  - simpl. now rewrite rstrip_spaces.
Qed.

Lemma not_comma_space_kept (c : ascii) (pre : str) :
  ~ comma_space (c :: pre) ->
  drop_comma (rstrip (c :: pre)) = c :: drop_comma (rstrip pre).
Proof.
  intros Hn. simpl. destruct (rstrip pre) as [|x r] eqn:E; [|reflexivity].
  apply rstrip_nil in E.
  destruct (isspace c) eqn:Hc.
  - exfalso. apply Hn. exists (c :: pre). split; auto.
  - simpl. destruct (Ascii.eqb "," c) eqn:Hcomma; [|reflexivity].
    apply Ascii.eqb_eq in Hcomma. subst c.
    exfalso. apply Hn. exists pre. split; auto.
Qed.

(** After collapsing, the only white space left is the space. *)
Lemma collapse_ws_space (s : str) :
  forall b c, In c (collapse_ws b s) -> isspace c = true -> c = " "%char.
Proof.
  induction s as [|x s IH]; intros b c; simpl; [intros []|].
  destruct (isspace x) eqn:Hx.
  - destruct b; [apply IH|]. intros [<- | H]; auto. apply (IH _ _ H).
  - intros [<- | H]; [congruence | apply (IH _ _ H)].
Qed.

Lemma collapse_ws_no_newline (b : bool) (s : str) :
  ~ In newline (collapse_ws b s).
Proof.
  intros H. apply collapse_ws_space in H; [discriminate | reflexivity].
Qed.

Lemma at_end_no_newline (tail : str) :
  at_end tail = true -> ~ In newline tail -> tail = [].
Proof.
  destruct tail as [|c [|d t]]; simpl; auto; [|discriminate].
  intros Hc Hn. exfalso. apply Hn. left. apply Nat.eqb_eq in Hc.
  unfold newline. rewrite <- Hc. unfold code. symmetry. apply ascii_nat_embedding.
Qed.

End StrFacts.

(* ================================================================== *)
(** * The substitutions of [normalize_address] *)
(* ================================================================== *)

Module SubFacts.
Import ReFacts StrFacts.

Lemma match_ws_run (prev : option ascii) (cur : str) :
  match_here pattern_ws_run prev cur =
  match count_prefix isspace None cur with
  | 0 => None
  | S n => Some (MResult (S n + 0) None None)
  end.
Proof.
  unfold pattern_ws_run, plus. cbn [match_here].
  destruct (count_prefix isspace None cur) as [|n]; reflexivity.
Qed.

(** [re.sub(r'\s+', ' ', s)] collapses every run of white space. *)
Lemma sub_ws_run_collapse (cur : str) :
  forall prev,
    sub_from pattern_ws_run (py " ") prev cur 0 = collapse_ws false cur /\
    sub_from pattern_ws_run (py " ") prev cur (count_prefix isspace None cur)
    = collapse_ws true cur.
Proof.
  induction cur as [|c cur IH]; intros prev; [split; reflexivity|].
  cbn [count_prefix option_map collapse_ws].
  destruct (isspace c) eqn:Hc.
  - destruct (IH (Some c)) as [_ IH2]. split.
    + cbn [sub_from]. rewrite match_ws_run. cbn [count_prefix option_map].
      rewrite Hc. cbn [consumed Nat.add]. rewrite Nat.add_0_r, IH2. reflexivity.
    + cbn [sub_from]. exact IH2.
  - destruct (IH (Some c)) as [IH1 _].
    assert (E : sub_from pattern_ws_run (py " ") prev (c :: cur) 0
                = c :: collapse_ws false cur).
    { cbn [sub_from]. rewrite match_ws_run. cbn [count_prefix option_map].
      rewrite Hc, IH1. reflexivity. }
    split; exact E.
Qed.

Lemma sub_from_skip_all (p : pattern) (repl : str) :
  (forall prev, match_here p prev [] = None) ->
  forall cur prev, sub_from p repl prev cur (List.length cur) = [].
Proof.
  intros Hp. induction cur as [|c cur IH]; intros prev; simpl.
  - now rewrite Hp.
  - apply IH.
Qed.

Section Suffix.

Variable w : str.
Hypothesis w_nonempty : w <> [].

(** A match of [,?\s*w$] in a text without line feed runs to the end of
    the text and starts with a comma-and-space part followed by [w]. *)
Lemma match_suffix_sound (prev : option ascii) (cur : str) (r : mresult) :
  ~ In newline cur ->
  match_here (pattern_suffix w) prev cur = Some r ->
  consumed r = List.length cur /\
  exists pre, cur = pre ++ w /\ comma_space pre.
Proof.
  intros Hnl H. apply match_comma_space_sound in H.
  destruct H as (pre & rest & prev' & rq & -> & Hpre & Hq & Hc).
  apply match_literal_end_sound in Hq. destruct Hq as (Hrq & tail & -> & Ht).
  assert (tail = []) as ->.
  { apply at_end_no_newline; auto. intros Hin. apply Hnl.
    apply in_or_app. right. apply in_or_app. now right. }
  rewrite app_nil_r in *. split; [|eauto].
  rewrite length_app. lia.
Qed.

Lemma match_suffix_complete (prev : option ascii) (pre : str) :
  comma_space pre -> match_here (pattern_suffix w) prev (pre ++ w) <> None.
Proof.
  intros Hpre. apply match_comma_space_complete; auto.
  intros prev'. now rewrite match_literal_end_complete.
Qed.

Lemma match_suffix_nil (prev : option ascii) :
  match_here (pattern_suffix w) prev [] = None.
Proof.
  destruct (match_here (pattern_suffix w) prev []) as [r|] eqn:E; auto.
  apply match_suffix_sound in E; [|intros []].
  destruct E as (_ & pre & E & _). symmetry in E.
  apply app_eq_nil in E. destruct E. contradiction.
Qed.

(** [re.sub(r',?\s*w$', '', s)] on a text without line feed removes a
    trailing [w] with the white space and the comma before it. *)
Lemma sub_suffix_drop (cur : str) :
  forall prev, ~ In newline cur ->
               sub_from (pattern_suffix w) [] prev cur 0 = drop_suffix w cur.
Proof.
  induction cur as [|c cur IH]; intros prev Hnl.
  - cbn [sub_from]. rewrite match_suffix_nil.
    unfold drop_suffix. now destruct (endswith w []).
  - cbn [sub_from].
    destruct (match_here (pattern_suffix w) prev (c :: cur)) as [r|] eqn:M.
    + apply match_suffix_sound in M; auto.
      destruct M as (Hc & pre & E & Hpre).
      rewrite Hc. cbn [List.length app].
      rewrite sub_from_skip_all by apply match_suffix_nil.
      rewrite E, drop_suffix_app. symmetry. now apply comma_space_dropped.
    + assert (Hnl' : ~ In newline cur) by (intros H; apply Hnl; now right).
      rewrite (IH _ Hnl'). destruct (endswith w cur) eqn:E.
      * apply endswith_spec in E. destruct E as (pre & ->).
        change (c :: pre ++ w) with ((c :: pre) ++ w).
        rewrite !drop_suffix_app. symmetry. apply not_comma_space_kept.
        intros Hcs. now apply (match_suffix_complete prev) in Hcs.
      * rewrite (drop_suffix_absent _ _ E). symmetry. apply drop_suffix_absent.
        destruct (endswith w (c :: cur)) eqn:E'; auto.
        apply endswith_spec in E'. destruct E' as ([|x pre] & Hpre).
        -- exfalso. apply (@match_suffix_complete prev []).
           ++ exists []. auto.
           ++ rewrite <- Hpre. exact M.
        -- simpl in Hpre. injection Hpre as _ ->.
           assert (endswith w (pre ++ w) = true) by (apply endswith_spec; eauto).
           congruence.
Qed.

End Suffix.

(** The code normalises as the description does, with the suffixes
    "united states of america" and "usa". *)
Lemma normalize_address_spec (a : str) :
  normalize_address (PyStr a) = normalize_spec code_suffixes a.
Proof.
  unfold normalize_address, normalize_spec, code_suffixes, sub. cbn [fold_left].
  destruct (sub_ws_run_collapse (strip (lower a)) None) as [-> _].
  change pattern_suffix_usoa with (pattern_suffix (py "united states of america")).
  change pattern_suffix_usa with (pattern_suffix (py "usa")).
  rewrite (@sub_suffix_drop (py "united states of america"));
    [|discriminate|apply collapse_ws_no_newline].
  rewrite (@sub_suffix_drop (py "usa")); [reflexivity|discriminate|].
  intros H.
  destruct (drop_suffix_prefix (py "united states of america")
              (collapse_ws false (strip (lower a)))) as (t & Ht).
  apply (@collapse_ws_no_newline false (strip (lower a))).
  rewrite Ht. apply in_or_app. now left.
Qed.

End SubFacts.

(* ================================================================== *)
(** * Normalised addresses *)
(* ================================================================== *)

Module NormalFacts.
Import StrFacts SubFacts.

Lemma lower_char_idempotent (c : ascii) : lower_char (lower_char c) = lower_char c.
Proof. destruct c as [[] [] [] [] [] [] [] []]; reflexivity. Qed.

Lemma lower_fixed (s : str) :
  Forall (fun c => lower_char c = c) s -> lower s = s.
Proof.
  induction 1 as [|c s Hc HF IH]; simpl; [reflexivity|]. now rewrite Hc, IH.
Qed.

Lemma collapse_ws_In (s : str) :
  forall b c, In c (collapse_ws b s) -> c = " "%char \/ In c s.
Proof.
  induction s as [|x s IH]; intros b c; simpl; [intros []|].
  destruct (isspace x).
  - destruct b.
    + intros H. destruct (IH _ _ H); auto.
    + intros [<- | H]; auto. destruct (IH _ _ H); auto.
  - intros [<- | H]; auto. destruct (IH _ _ H); auto.
Qed.

Lemma spaced_weaken (s : str) : spaced true s -> spaced false s.
Proof.
  destruct s as [|c s]; simpl; auto.
  destruct (isspace c); auto. intros (_ & H & _). discriminate.
Qed.

Lemma collapse_ws_spaced (s : str) : forall b, spaced b (collapse_ws b s).
Proof.
  induction s as [|c s IH]; intros b; simpl; auto.
  destruct (isspace c) eqn:Hc.
  - destruct b; [apply IH|].
    cbn [spaced]. change (isspace " ") with true. cbv iota. auto.
  - cbn [spaced]. rewrite Hc. apply IH.
Qed.

Lemma spaced_fixed (s : str) : forall b, spaced b s -> collapse_ws b s = s.
Proof.
  induction s as [|c s IH]; intros b; simpl; auto.
  destruct (isspace c).
  - intros (-> & -> & H). now rewrite (IH _ H).
  - intros H. now rewrite (IH _ H).
Qed.

Lemma spaced_prefix (s t : str) : forall b, spaced b (s ++ t) -> spaced b s.
Proof.
  induction s as [|c s IH]; intros b; simpl; auto.
  destruct (isspace c).
  - intros (Hc & Hb & H). eauto.
  - apply IH.
Qed.

Lemma spaced_lstrip (s : str) : forall b, spaced b s -> spaced false (lstrip s).
Proof.
  induction s as [|c s IH]; intros b; simpl; auto.
  destruct (isspace c) eqn:Hc.
  - intros (_ & _ & H). eapply IH; eauto.
  - intros H. cbn [spaced]. now rewrite Hc.
Qed.

Lemma spaced_rstrip (s : str) : forall b, spaced b s -> spaced b (rstrip s).
Proof.
  intros b H. destruct (rstrip_prefix s) as (t & Hs & _).
  rewrite Hs in H. eapply spaced_prefix; eauto.
Qed.

Lemma spaced_drop_suffix (w s : str) :
  forall b, spaced b s -> spaced b (drop_suffix w s).
Proof.
  intros b H. destruct (drop_suffix_prefix w s) as (t & Hs).
  rewrite Hs in H. eapply spaced_prefix; eauto.
Qed.

Lemma lstrip_head (s : str) :
  match lstrip s with [] => True | c :: _ => isspace c = false end.
Proof.
  induction s as [|c s IH]; simpl; auto.
  destruct (isspace c) eqn:Hc; auto.
Qed.

Lemma lstrip_fixed (s : str) :
  match s with [] => True | c :: _ => isspace c = false end -> lstrip s = s.
Proof. destruct s as [|c s]; simpl; auto. now intros ->. Qed.

Lemma rstrip_idempotent (s : str) : rstrip (rstrip s) = rstrip s.
Proof.
  induction s as [|c s IH]; simpl; auto.
  destruct (rstrip s) as [|x r] eqn:E.
  - destruct (isspace c) eqn:Hc; simpl; auto. now rewrite Hc.
  - change (rstrip (c :: x :: r))
      with (match rstrip (x :: r) with
            | [] => if isspace c then [] else [c]
            | y :: r' => c :: y :: r'
            end).
    now rewrite IH.
Qed.

(** A trimmed text has no white space at either end. *)
Lemma strip_trimmed (s : str) :
  lstrip (strip s) = strip s /\ rstrip (strip s) = strip s.
Proof.
  unfold strip. split; [|apply rstrip_idempotent].
  apply lstrip_fixed.
  pose proof (lstrip_head s) as Hh.
  destruct (rstrip_prefix (lstrip s)) as (t & Hs & _).
  destruct (rstrip (lstrip s)) as [|c r]; auto.
  rewrite Hs in Hh. exact Hh.
Qed.

Lemma strip_fixed (s : str) : lstrip s = s -> rstrip s = s -> strip s = s.
Proof. unfold strip. now intros -> ->. Qed.

Lemma strip_incl (s : str) : incl (strip s) s.
Proof.
  unfold strip. intros c Hc.
  destruct (rstrip_prefix (lstrip s)) as (t & Hs & _).
  destruct (lstrip_suffix s) as (t' & Hs' & _).
  rewrite Hs'. apply in_or_app. right. rewrite Hs. apply in_or_app. now left.
Qed.

Lemma drop_suffix_incl (w s : str) : incl (drop_suffix w s) s.
Proof.
  intros c Hc. destruct (drop_suffix_prefix w s) as (t & Hs).
  rewrite Hs. apply in_or_app. now left.
Qed.

Lemma normalize_address_body (a : str) :
  normalize_address (PyStr a)
  = strip (drop_suffix (py "usa")
             (drop_suffix (py "united states of america")
                (collapse_ws false (strip (lower a))))).
Proof. rewrite normalize_address_spec. reflexivity. Qed.

(** The shape of every normalised address. *)
Lemma normalize_address_shape (a : str) :
  Forall (fun c => lower_char c = c) (normalize_address (PyStr a)) /\
  spaced false (normalize_address (PyStr a)) /\
  lstrip (normalize_address (PyStr a)) = normalize_address (PyStr a) /\
  rstrip (normalize_address (PyStr a)) = normalize_address (PyStr a).
Proof.
  rewrite normalize_address_body. split; [|split; [|apply strip_trimmed]].
  - apply Forall_forall. intros c Hc.
    apply strip_incl, drop_suffix_incl, drop_suffix_incl, collapse_ws_In in Hc.
    destruct Hc as [-> | Hc]; [reflexivity|].
    apply strip_incl in Hc. unfold lower in Hc. apply in_map_iff in Hc.
    destruct Hc as (x & <- & _). apply lower_char_idempotent.
  - unfold strip. apply spaced_rstrip. eapply spaced_lstrip.
    apply spaced_drop_suffix, spaced_drop_suffix.
    apply collapse_ws_spaced.
Qed.

(** A text of the shape of a normalised address that ends with none of the
    two suffixes is left unchanged by normalisation. *)
Lemma normalize_address_fixed (n : str) :
  Forall (fun c => lower_char c = c) n ->
  spaced false n -> lstrip n = n -> rstrip n = n ->
  endswith (py "united states of america") n = false ->
  endswith (py "usa") n = false ->
  normalize_address (PyStr n) = n.
Proof.
  intros Hl Hs Hls Hrs H1 H2.
  rewrite normalize_address_spec. unfold normalize_spec, code_suffixes.
  rewrite (lower_fixed Hl), (strip_fixed Hls Hrs), (@spaced_fixed _ _ Hs).
  cbn [fold_left]. rewrite (drop_suffix_absent _ _ H1), (drop_suffix_absent _ _ H2).
  now apply strip_fixed.
Qed.

Lemma strip_length (s : str) : List.length (strip s) <= List.length s.
Proof.
  unfold strip.
  destruct (rstrip_prefix (lstrip s)) as (t & Hs & _).
  destruct (lstrip_suffix s) as (t' & Hs' & _).
  rewrite Hs' at 2. rewrite Hs at 2. rewrite !length_app. lia.
Qed.

Lemma drop_suffix_length (w s : str) :
  List.length (drop_suffix w s) <= List.length s.
Proof.
  destruct (drop_suffix_prefix w s) as (t & Hs).
  rewrite Hs at 2. rewrite length_app. lia.
Qed.

Lemma drop_suffix_shorter (w s : str) :
  w <> [] -> endswith w s = true ->
  List.length (drop_suffix w s) < List.length s.
Proof.
  intros Hw E. apply endswith_spec in E. destruct E as (pre & ->).
  rewrite drop_suffix_app, length_app.
  destruct (rstrip_prefix pre) as (t1 & H1 & _).
  destruct (drop_comma_prefix (rstrip pre)) as (t2 & H2).
  assert (List.length (drop_comma (rstrip pre)) <= List.length pre).
  { rewrite H1 at 2. rewrite H2 at 2. rewrite !length_app. lia. }
  destruct w; [contradiction | simpl; lia].
Qed.

(** A text of the shape of a normalised address that still ends with one of
    the two suffixes is changed by normalisation. *)
Lemma normalize_address_moves (n : str) :
  Forall (fun c => lower_char c = c) n ->
  spaced false n -> lstrip n = n -> rstrip n = n ->
  endswith (py "united states of america") n = true \/
  endswith (py "usa") n = true ->
  normalize_address (PyStr n) <> n.
Proof.
  intros Hl Hs Hls Hrs Hends E.
  rewrite normalize_address_spec in E. unfold normalize_spec, code_suffixes in E.
  rewrite (lower_fixed Hl), (strip_fixed Hls Hrs), (@spaced_fixed _ _ Hs) in E.
  cbn [fold_left] in E.
  assert (Hlt : List.length
                  (drop_suffix (py "usa")
                     (drop_suffix (py "united states of america") n))
                < List.length n).
  { destruct (endswith (py "united states of america") n) eqn:E1.
    - eapply Nat.le_lt_trans; [apply drop_suffix_length|].
      apply drop_suffix_shorter; [discriminate | exact E1].
    - rewrite (drop_suffix_absent _ _ E1).
      apply drop_suffix_shorter; [discriminate|].
      destruct Hends; [discriminate | assumption]. }
  pose proof (strip_length
                (drop_suffix (py "usa")
                   (drop_suffix (py "united states of america") n))) as Hle.
  rewrite E in Hle. lia.
Qed.

End NormalFacts.

(** C7 (as amended).  [normalize_address] returns the input lower-cased,
    trimmed, with every run of white space collapsed to one space, then with
    a trailing "united states of america" and a trailing "usa" removed, each
    with the white space and the comma before it, and trimmed again.  The
    result is in lower case, its only white space is single spaces, and it
    has no white space at either end. *)
Theorem normalize_address_meets_description (a : str) :
  normalize_address (PyStr a) = normalize_spec code_suffixes a /\
  code_suffixes = [py "united states of america"; py "usa"] /\
  lower (normalize_address (PyStr a)) = normalize_address (PyStr a) /\
  spaced false (normalize_address (PyStr a)) /\
  strip (normalize_address (PyStr a)) = normalize_address (PyStr a).
Proof.
  destruct (NormalFacts.normalize_address_shape a) as (Hl & Hs & Hls & Hrs).
  split; [apply SubFacts.normalize_address_spec|]. split; [reflexivity|].
  split; [now apply NormalFacts.lower_fixed|]. split; [exact Hs|].
  now apply NormalFacts.strip_fixed.
Qed.

(** C7 does not hold as stated: a trailing "united states" is kept. *)
Lemma normalize_address_keeps_united_states :
  normalize_address (PyStr (py "1 Main St, United States"))
  = py "1 main st, united states" /\
  normalize_spec spec_suffixes (py "1 Main St, United States") = py "1 main st" /\
  endswith (py "united states")
           (normalize_address (PyStr (py "1 Main St, United States"))) = true /\
  normalize_address (PyStr (py "1 Main St, United States"))
  <> normalize_spec spec_suffixes (py "1 Main St, United States").
Proof.
  repeat split; try (vm_compute; reflexivity). vm_compute. discriminate.
Qed.

(** X17.  A second normalisation changes every normalised form that still
    ends with one of the two suffixes. *)
Lemma normalize_address_twice_differs (a : str) :
  endswith (py "usa") (normalize_address (PyStr a)) = true \/
  endswith (py "united states of america") (normalize_address (PyStr a)) = true ->
  normalize_address (PyStr (normalize_address (PyStr a)))
  <> normalize_address (PyStr a).
Proof.
  intros H.
  destruct (NormalFacts.normalize_address_shape a) as (Hl & Hs & Hls & Hrs).
  apply NormalFacts.normalize_address_moves; auto. tauto.
Qed.

(** C6 (as amended).  Normalisation is idempotent on every address whose
    normalised form ends neither with "usa" nor with
    "united states of america". *)
Theorem normalize_address_idempotent_without_suffix (a : str) :
  endswith (py "usa") (normalize_address (PyStr a)) = false ->
  endswith (py "united states of america") (normalize_address (PyStr a)) = false ->
  normalize_address (PyStr (normalize_address (PyStr a)))
  = normalize_address (PyStr a).
Proof.
  intros Husa Husoa.
  destruct (NormalFacts.normalize_address_shape a) as (Hl & Hs & Hls & Hrs).
  now apply NormalFacts.normalize_address_fixed.
Qed.

(** An address whose normalised form has no suffix left. *)
Lemma normalize_address_idempotent_without_suffix_witness :
  normalize_address
    (PyStr (normalize_address (PyStr (py "  100 Oak  Ave, Austin, TX 78701, USA "))))
  = normalize_address (PyStr (py "  100 Oak  Ave, Austin, TX 78701, USA ")).
Proof.
  apply (normalize_address_idempotent_without_suffix
           (py "  100 Oak  Ave, Austin, TX 78701, USA "));
    vm_compute; reflexivity.
Defined.

(** C6 does not hold as stated: normalising "x usa usa" gives "x usa", and
    normalising that gives "x". *)
Lemma normalize_address_not_idempotent :
  normalize_address (PyStr (py "x usa usa")) = py "x usa" /\
  normalize_address (PyStr (normalize_address (PyStr (py "x usa usa")))) = py "x" /\
  normalize_address (PyStr (normalize_address (PyStr (py "x usa usa"))))
  <> normalize_address (PyStr (py "x usa usa")).
Proof.
  repeat split; try (vm_compute; reflexivity). vm_compute. discriminate.
Qed.

(* ================================================================== *)
(** * Contact deduplication *)
(* ================================================================== *)

Module ContactFacts.
Import Contacts.

Lemma seen_spec (k : str) (seen : list str) :
  existsb (str_eqb k) seen = true <-> In k seen.
Proof.
  rewrite existsb_exists. split.
  - intros (x & Hx & E). apply str_eqb_eq in E. now subst.
  - intros H. exists k. split; auto. now apply str_eqb_eq.
Qed.

(** The surviving rows are a selection of the rows in their order. *)
Lemma drop_duplicates_from_subseq (rows : list enriched) :
  forall seen, subseq (drop_duplicates_from seen rows) rows.
Proof.
  induction rows as [|e rest IH]; intros seen; simpl; [constructor|].
  destruct (existsb (str_eqb (dedup_key e)) seen); constructor; apply IH.
Qed.

Lemma drop_duplicates_from_fresh (rows : list enriched) :
  forall seen e, In e (drop_duplicates_from seen rows) ->
                 In e rows /\ ~ In (dedup_key e) seen.
Proof.
  induction rows as [|x rest IH]; intros seen e; simpl; [intros []|].
  destruct (existsb (str_eqb (dedup_key x)) seen) eqn:E.
  - intros H. destruct (IH _ _ H). auto.
  - intros [<- | H].
    + split; auto. rewrite <- seen_spec. congruence.
    + destruct (IH _ _ H) as [Hin Hk]. split; auto.
      intros Hs. apply Hk. now right.
Qed.

(** No two surviving rows have the same key. *)
Lemma drop_duplicates_from_NoDup (rows : list enriched) :
  forall seen, NoDup (map dedup_key (drop_duplicates_from seen rows)).
Proof.
  induction rows as [|x rest IH]; intros seen; simpl; [constructor|].
  destruct (existsb (str_eqb (dedup_key x)) seen) eqn:E; [apply IH|].
  simpl. constructor; [|apply IH].
  rewrite in_map_iff. intros (e & Hk & He).
  apply drop_duplicates_from_fresh in He. destruct He as [_ Hn].
  apply Hn. left. auto.
Qed.

(** The first row of every key that was not seen before survives. *)
Lemma drop_duplicates_from_first (rows : list enriched) :
  forall seen l1 e l2,
    rows = l1 ++ e :: l2 ->
    ~ In (dedup_key e) seen ->
    ~ In (dedup_key e) (map dedup_key l1) ->
    In e (drop_duplicates_from seen rows).
Proof.
  induction rows as [|x rest IH]; intros seen l1 e l2 Hrows Hseen Hfirst.
  - destruct l1; discriminate.
  - destruct l1 as [|y l1]; simpl in Hrows; injection Hrows as -> ->; simpl.
    + rewrite <- seen_spec in Hseen. apply not_true_iff_false in Hseen.
      rewrite Hseen. now left.
    + simpl in Hfirst.
      destruct (existsb (str_eqb (dedup_key y)) seen).
      * apply (IH seen l1 e l2); auto.
      * right. apply (IH _ l1 e l2); auto. intros [H | H]; auto.
Qed.

(** A row that is not the first of its key does not survive at its
    position: the rows after a row of the same key lose that key. *)
Lemma drop_duplicates_from_later (rows : list enriched) :
  forall seen e, In (dedup_key e) seen ->
                 ~ In e (drop_duplicates_from seen rows).
Proof.
  intros seen e Hseen Hin.
  apply drop_duplicates_from_fresh in Hin. tauto.
Qed.

(** X25.  Deduplication keeps an order-preserving selection of the rows,
    with one row per joined key, which is the first row of that key; every
    row has a kept row with its joined key. *)
Lemma drop_duplicates_keeps_first (rows : list enriched) :
  subseq (drop_duplicates rows) rows /\
  NoDup (map dedup_key (drop_duplicates rows)) /\
  (forall l1 e l2,
      rows = l1 ++ e :: l2 ->
      ~ In (dedup_key e) (map dedup_key l1) ->
      In e (drop_duplicates rows)) /\
  (forall e, In e rows ->
             exists e', In e' (drop_duplicates rows) /\
                        dedup_key e' = dedup_key e).
Proof.
  unfold drop_duplicates. split; [apply drop_duplicates_from_subseq|].
  split; [apply drop_duplicates_from_NoDup|]. split.
  - intros l1 e l2 Hrows Hfirst.
    eapply drop_duplicates_from_first; eauto.
  - intros e He.
    assert (Hfirst : forall l (y : enriched),
               In y l -> exists l1 y' l2,
                 l = l1 ++ y' :: l2 /\ dedup_key y' = dedup_key y /\
                 ~ In (dedup_key y) (map dedup_key l1)).
    { clear. induction l as [|z l IHl]; intros y Hy; [destruct Hy|].
      destruct (list_eq_dec ascii_dec (dedup_key z) (dedup_key y)) as [E|E].
      - exists [], z, l. repeat split; auto.
      - destruct Hy as [-> | Hy]; [congruence|].
        destruct (IHl y Hy) as (l1 & y' & l2 & -> & Hk & Hn).
        exists (z :: l1), y', l2. repeat split; auto.
        simpl. intros [H | H]; auto. }
    destruct (Hfirst _ _ He) as (l1 & e' & l2 & Hrows & Hk & Hn).
    exists e'. split; auto.
    eapply drop_duplicates_from_first; eauto. congruence.
Qed.

Lemma app_bar_inj (a a' x x' : str) :
  ~ In "|"%char a -> ~ In "|"%char a' ->
  a ++ "|"%char :: x = a' ++ "|"%char :: x' -> a = a' /\ x = x'.
Proof.
  revert a'. induction a as [|c a IH]; intros [|c' a'] Ha Ha' E; simpl in *.
  - injection E as ->. auto.
  - injection E as <- _. exfalso. apply Ha'. now left.
  - injection E as -> _. exfalso. apply Ha. now left.
  - injection E as -> E. destruct (IH a') as [-> ->]; auto.
Qed.

(** X26.  When no component contains the separator, rows have the same
    joined key exactly when they have the same four components. *)
Lemma dedup_key_composite (e1 e2 : enriched) :
  bar_free e1 -> bar_free e2 ->
  (dedup_key e1 = dedup_key e2 <-> composite_key e1 = composite_key e2).
Proof.
  unfold bar_free, composite_key, dedup_key.
  intros (Hf1 & Ha1 & Hb1 & Hm1) (Hf2 & Ha2 & Hb2 & Hm2). split.
  - intros E. simpl in E.
    apply app_bar_inj in E; auto. destruct E as [-> E].
    apply app_bar_inj in E; auto. destruct E as [-> E].
    apply app_bar_inj in E; auto. destruct E as [-> ->]. reflexivity.
  - intros [= -> -> -> ->]. reflexivity.
Qed.

(** C9, at an input on which the code departs from it.  The two rows differ
    in the facility and first-name components of the key, and yet only the
    first survives: their joined keys are the same text. *)
Theorem dedup_merges_rows_with_distinct_components :
  exists e1 e2,
    enrich_all Sample.bar_contacts = Some [e1; e2] /\
    composite_key e1 <> composite_key e2 /\
    dedup_key e1 = dedup_key e2 /\
    process Sample.bar_contacts = Some [e1].
Proof.
  eexists. eexists. split; [vm_compute; reflexivity|].
  split; [|split]; [|vm_compute; reflexivity|vm_compute; reflexivity].
  vm_compute. discriminate.
Qed.

End ContactFacts.

(* ================================================================== *)
(** * Extracted states *)
(* ================================================================== *)

Module StateFacts.
Import ReFacts PatternFacts.

(** An extracted state is one of the state codes. *)
Lemma state_of_in_states (addr s : str) :
  state_of addr = Some s ->
  In s us_states /\ List.length s = 2 /\ s <> NO_STATE.
Proof.
  intros H.
  assert (Hin : In s us_states).
  { unfold state_of in H. destruct (nonempty addr); [|discriminate].
    apply scan_patterns_some in H. destruct H as (i & p & _ & Hy & _).
    apply yields_spec in Hy. destruct Hy as (g & _ & _ & Hin). exact Hin. }
  split; [exact Hin|]. split.
  - assert (Hall : Forall (fun x => List.length x = 2) us_states).
    { repeat constructor. }
    rewrite Forall_forall in Hall. auto.
  - intros ->. apply is_us_state_In in Hin. vm_compute in Hin. discriminate.
Qed.

(** X1.  An extracted state is one of the 56 codes: it has two characters
    and is never the key of the sentinel bucket. *)
Theorem state_of_is_state_code (addr s : str) :
  state_of addr = Some s ->
  In s us_states /\ List.length s = 2 /\ s <> NO_STATE.
Proof. apply state_of_in_states. Qed.

Lemma state_of_is_state_code_witness :
  In (py "IL") us_states /\ List.length (py "IL") = 2 /\ py "IL" <> NO_STATE.
Proof.
  apply (@state_of_is_state_code (py "123 Main St, Springfield, IL 62701")).
  vm_compute. reflexivity.
Defined.

Lemma match_comma_pattern_needs_comma (p : pattern) (prev : option ascii)
  (c : ascii) (cur : str) :
  c <> ","%char -> match_here (lit ","%char :: p) prev (c :: cur) = None.
Proof.
  intros Hc. rewrite match_here_lit.
  destruct (Ascii.eqb "," c) eqn:E; auto.
  apply Ascii.eqb_eq in E. congruence.
Qed.

(** X2.  In an address whose first comma is followed by white space if any,
    a state code in either case, white space and five digits, that code is
    the extracted state. *)
Theorem state_of_after_single_comma (pre ws g ws' d rest : str) :
  ~ In ","%char pre ->
  all_in isspace ws -> List.length g = 2 -> all_in isletter g ->
  ws' <> [] -> all_in isspace ws' -> List.length d = 5 -> all_in isdigit d ->
  is_us_state (upper g) = true ->
  state_of (pre ++ ","%char :: ws ++ g ++ ws' ++ d ++ rest) = Some (upper g).
Proof.
  intros Hpre Hws Hlen Hg Hne Hws' Hd Hdd Hst.
  assert (Hsearch : search pattern_comma_state_zip
                      (pre ++ ","%char :: ws ++ g ++ ws' ++ d ++ rest) = Some g).
  { unfold search. apply search_from_leftmost.
    destruct (proj2 (comma_state_zip_matches (before None pre)
                       (","%char :: ws ++ g ++ ws' ++ d ++ rest) g))
      as (r & Hm & Hgr).
    { exists (","%char :: ws ++ g ++ ws' ++ d), rest. split.
      - cbn [app]. now rewrite <- !app_assoc.
      - exists ws, ws', d. repeat split; auto. }
    exists pre, (","%char :: ws ++ g ++ ws' ++ d ++ rest), r.
    repeat split; auto.
    intros pre' rest' Hsplit Hl.
    assert (Hrest : exists c t, rest' = c :: t /\ In c pre).
    { revert pre' Hsplit Hl. clear -Hpre. induction pre as [|x pre IH];
        intros pre' Hsplit Hl; [simpl in Hl; lia|].
      destruct pre' as [|y pre'].
      - simpl in Hsplit. exists x. eexists. split; [symmetry; exact Hsplit | now left].
      - simpl in Hsplit. injection Hsplit as <- Hsplit.
        destruct (IH (fun H => Hpre (or_intror H)) pre' Hsplit) as (c & t & -> & Hin).
        + simpl in Hl. lia.
        + exists c, t. split; auto. now right. }
    destruct Hrest as (c & t & -> & Hin).
    apply match_comma_pattern_needs_comma. intros ->. contradiction. }
  unfold state_of.
  assert (Hn : nonempty (pre ++ ","%char :: ws ++ g ++ ws' ++ d ++ rest) = true)
    by (destruct pre; reflexivity).
  rewrite Hn. unfold patterns. cbn [scan_patterns]. now rewrite Hsearch, Hst.
Qed.

Lemma state_of_after_single_comma_witness :
  state_of (py "100 Oak Ave Austin" ++ ","%char :: py " " ++ py "tx" ++ py " "
              ++ py "78701" ++ py "-1234")
  = Some (upper (py "tx")).
Proof.
  apply state_of_after_single_comma; try (vm_compute; reflexivity);
    try (repeat constructor); try discriminate.
  vm_compute. intuition discriminate.
Defined.

End StateFacts.

(* ================================================================== *)
(** * Building the index *)
(* ================================================================== *)

Module IndexFacts.

Lemma str_eqb_refl (a : str) : str_eqb a a = true.
Proof. now apply str_eqb_eq. Qed.

Lemma str_eqb_neq (a b : str) : str_eqb a b = false <-> a <> b.
Proof.
  unfold str_eqb. destruct (list_eq_dec ascii_dec a b); split; congruence.
Qed.

Lemma index_row_cases (D : Type) (idx : index D) (c : candidate D) :
  index_row idx c = if indexed c then index_append (bucket_key c) c idx else idx.
Proof.
  destruct c as [[a n] d]. unfold index_row, indexed, bucket_key. simpl.
  destruct (nonempty a); [|reflexivity].
  destruct (state_of a) as [s|]; [|reflexivity]. now destruct (nonempty s).
Qed.

Lemma index_get_append (D : Type) (key k : str) (c : candidate D) (idx : index D) :
  index_get k (index_append key c idx)
  = if str_eqb key k then extend_bucket (index_get k idx) [c]
    else index_get k idx.
Proof.
  induction idx as [|[k0 b] rest IH]; simpl.
  - destruct (str_eqb key k); reflexivity.
  - destruct (str_eqb k0 key) eqn:E0.
    + apply str_eqb_eq in E0. subst k0. simpl.
      destruct (str_eqb key k) eqn:E; reflexivity.
    + simpl. destruct (str_eqb k0 k) eqn:E1.
      * destruct (str_eqb key k) eqn:E; [|reflexivity].
        apply str_eqb_eq in E1, E. subst. rewrite str_eqb_refl in E0. discriminate.
      * exact IH.
Qed.

Lemma extend_bucket_app (D : Type) (b : option (list (candidate D)))
  (l1 l2 : list (candidate D)) :
  extend_bucket (extend_bucket b l1) l2 = extend_bucket b (l1 ++ l2).
Proof.
  destruct b as [b|]; simpl; [now rewrite app_assoc|].
  destruct l1; simpl; auto.
Qed.

Lemma fold_index_get (D : Type) (rows : list (candidate D)) :
  forall (idx : index D) (k : str),
    index_get k (fold_left (@index_row D) rows idx)
    = extend_bucket (index_get k idx)
        (filter (fun c => indexed c && str_eqb (bucket_key c) k) rows).
Proof.
  induction rows as [|c rows IH]; intros idx k; simpl.
  - destruct (index_get k idx); simpl; auto. now rewrite app_nil_r.
  - rewrite IH, index_row_cases. destruct (indexed c); simpl; [|reflexivity].
    rewrite index_get_append. destruct (str_eqb (bucket_key c) k); [|reflexivity].
    now rewrite extend_bucket_app.
Qed.

(** X4.  In the index built from the rows, the bucket of a key holds, in
    row order, exactly the rows with a non-empty address whose key it is; a
    key without such a row is absent. *)
Theorem build_index_bucket (D : Type) (rows : list (candidate D)) (k : str) :
  index_get k (build_index rows)
  = match filter (fun c => indexed c && str_eqb (bucket_key c) k) rows with
    | [] => None
    | bucket => Some bucket
    end.
Proof.
  unfold build_index. rewrite fold_index_get. simpl.
  now destruct (filter _ rows).
Qed.

Lemma all_candidates_append (D : Type) (key : str) (c : candidate D) (idx : index D) :
  Permutation (all_candidates (index_append key c idx)) (all_candidates idx ++ [c]).
Proof.
  unfold all_candidates. induction idx as [|[k0 b] rest IH]; simpl.
  - reflexivity.
  - destruct (str_eqb k0 key); simpl.
    + rewrite <- !app_assoc. apply Permutation_app_head.
      apply Permutation_app_comm.
    + rewrite <- app_assoc. now apply Permutation_app_head.
Qed.

Lemma keys_append_in (D : Type) (key : str) (c : candidate D) (idx : index D) :
  forall k, In k (map fst (index_append key c idx)) ->
            k = key \/ In k (map fst idx).
Proof.
  induction idx as [|[k0 b] rest IH]; simpl; intros k.
  - intros [<- | []]. now left.
  - destruct (str_eqb k0 key); simpl; intros [<- | H]; auto.
    destruct (IH _ H); auto.
Qed.

Lemma keys_append (D : Type) (key : str) (c : candidate D) (idx : index D) :
  NoDup (map fst idx) -> NoDup (map fst (index_append key c idx)).
Proof.
  induction idx as [|[k0 b] rest IH]; simpl; intros Hnd.
  - constructor; [intros [] | constructor].
  - destruct (str_eqb k0 key) eqn:E; simpl; [exact Hnd|].
    inversion Hnd as [|? ? Hk0 Hrest]; subst. constructor; [|now apply IH].
    intros H. destruct (keys_append_in _ _ _ _ H) as [-> | H']; [|contradiction].
    rewrite str_eqb_refl in E. discriminate.
Qed.

Lemma fold_index_perm (D : Type) (rows : list (candidate D)) :
  forall idx : index D,
    NoDup (map fst idx) ->
    Permutation (all_candidates (fold_left (@index_row D) rows idx))
                (all_candidates idx ++ filter (@indexed D) rows) /\
    NoDup (map fst (fold_left (@index_row D) rows idx)).
Proof.
  induction rows as [|c rows IH]; intros idx Hnd; simpl.
  - rewrite app_nil_r. split; auto.
  - rewrite index_row_cases. destruct (indexed c) eqn:E.
    + destruct (IH (index_append (bucket_key c) c idx)) as [Hp Hn].
      { now apply keys_append. }
      split; auto. rewrite Hp, all_candidates_append, <- app_assoc. reflexivity.
    + now apply IH.
Qed.

(** X5.  The index holds every row with a non-empty address exactly once,
    and no row with an empty address; its keys are pairwise different. *)
Theorem build_index_complete (D : Type) (rows : list (candidate D)) :
  Permutation (all_candidates (build_index rows)) (filter (@indexed D) rows) /\
  NoDup (map fst (build_index rows)).
Proof.
  unfold build_index.
  destruct (@fold_index_perm D rows []) as [Hp Hn]; [constructor|].
  split; auto.
Qed.

End IndexFacts.

(* ================================================================== *)
(** * Ranges of the scores and counters of one resolution *)
(* ================================================================== *)

Module ScoreFacts.



Lemma round3_keeps_threshold (q : Q) :
  (match_threshold <= q)%Q -> (match_threshold <= round3 q)%Q.
Proof.
  intros H. unfold round3, match_threshold in *.
  assert (Hf : (500 <= Qfloor (q * 1000))%Z).
  { rewrite <- (Qfloor_Z 500). apply Qfloor_resp_le.
    change (inject_Z 500) with 500%Q. lra. }
  assert (Hr : (500 <= round_half_even (q * 1000))%Z).
  { unfold round_half_even.
    destruct (Qcompare (q * 1000 - inject_Z (Qfloor (q * 1000))) (1 # 2));
      [destruct (Z.even (Qfloor (q * 1000))) | |]; lia. }
  assert (Hr' : (inject_Z 500 <= inject_Z (round_half_even (q * 1000)))%Q)
    by (rewrite <- Zle_Qle; exact Hr).
  change (inject_Z 500) with 500%Q in Hr'.
  set (x := inject_Z (round_half_even (q * 1000))) in *.
  unfold Qdiv. change (/ 1000)%Q with (1 # 1000)%Q. lra.
Qed.


Section Bounded.

Variable USE_RAPIDFUZZ : bool.
Variable token_set_ratio : str -> str -> Q.
Variable sequence_ratio : str -> str -> Q.

Hypothesis token_set_ratio_range :
  forall a b, (0 <= token_set_ratio a b /\ token_set_ratio a b <= 100)%Q.
Hypothesis sequence_ratio_range :
  forall a b, (0 <= sequence_ratio a b /\ sequence_ratio a b <= 1)%Q.




End Bounded.

End ScoreFacts.






Section ResolutionFacts.

Variable USE_RAPIDFUZZ : bool.
Variable token_set_ratio : str -> str -> Q.
Variable sequence_ratio : str -> str -> Q.

Lemma accepted_not_fallback (D : Type) (r : option D * Q) :
  accepted r = true -> needs_fallback r = false.
Proof.
  unfold accepted, needs_fallback. destruct r as [[d|] s]; simpl; [|discriminate].
  intros H. apply Qgeb_le in H. now apply Qltb_le.
Qed.

Lemma resolve_counter_facts (D : Type) (ts : option str) (ua fn : str)
  (idx : index D) :
  let r := resolve USE_RAPIDFUZZ token_set_ratio sequence_ratio ts ua fn idx in
  res_state_match r && res_fallback r = false /\
  res_state_match r || res_fallback r = reported r /\
  (res_state_match r = true -> res_ran_fallback r = false) /\
  (res_fallback r = true -> res_ran_fallback r = true).
Proof.
  unfold resolve, reported.
  destruct (accepted (state_filtered_phase _ _ _ ts ua fn idx)) eqn:A.
  - rewrite (accepted_not_fallback _ A). simpl.
    unfold accepted in A. split; [reflexivity|].
    split; [now rewrite A|]. split; [reflexivity | discriminate].
  - destruct (needs_fallback _) eqn:N; simpl.
    + split; [reflexivity|]. split; [reflexivity|]. split; [discriminate | reflexivity].
    + unfold accepted in A. split; [reflexivity|].
      split; [now rewrite A|]. split; [reflexivity | discriminate].
Qed.

(** X8.  For one target and one system the state-match counter and the
    fallback counter are never both bumped; one of them is bumped exactly
    when the identifiers are reported; the state-match counter is bumped
    only when the fallback did not run and the fallback counter only when
    it ran. *)
Theorem resolve_counts_reported (D : Type) (ts : option str) (ua fn : str)
  (idx : index D) :
  let r := resolve USE_RAPIDFUZZ token_set_ratio sequence_ratio ts ua fn idx in
  res_state_match r && res_fallback r = false /\
  res_state_match r || res_fallback r = reported r /\
  (res_state_match r = true -> res_ran_fallback r = false) /\
  (res_fallback r = true -> res_ran_fallback r = true).
Proof. apply resolve_counter_facts. Qed.

(** X9.  When the bucket of the target's state was scanned and the fallback
    then reports a match at or above the threshold, the matched candidate is
    not a row of that bucket. *)
Theorem fallback_match_outside_state_bucket (D : Type) (st ua fn : str)
  (idx : index D) (bucket : list (candidate D)) (d : D) :
  let r := resolve USE_RAPIDFUZZ token_set_ratio sequence_ratio
                   (Some st) ua fn idx in
  nonempty st = true ->
  index_get st idx = Some bucket ->
  res_ran_fallback r = true ->
  res_match r = Some d ->
  (match_threshold <= res_score r)%Q ->
  exists c,
    In c (all_candidates idx) /\ snd c = d /\
    score_c (combined_similarity_score USE_RAPIDFUZZ token_set_ratio
               sequence_ratio ua fn) c = res_score r /\
    ~ In c bucket.
Proof.
  intros r Hst Hget Hran Hm Hs.
  pose (score := combined_similarity_score USE_RAPIDFUZZ token_set_ratio
                   sequence_ratio ua fn).
  assert (H1 : state_filtered_phase USE_RAPIDFUZZ token_set_ratio sequence_ratio
                 (Some st) ua fn idx
               = best_scan score bucket None 0).
  { unfold state_filtered_phase. now rewrite Hst, Hget. }
  unfold r, resolve in Hran, Hm, Hs. rewrite H1 in *.
  destruct (needs_fallback (best_scan score bucket None 0)) eqn:N;
    [|discriminate]. simpl in Hm, Hs.
  assert (Hlow : (snd (best_scan score bucket None 0) < match_threshold)%Q).
  { unfold needs_fallback in N. apply orb_true_iff in N. destruct N as [N | N].
    - destruct (best_scan score bucket None 0) as [[x|] s] eqn:E; [discriminate|].
      apply best_scan_none in E. subst s. reflexivity.
    - now apply Qltb_lt. }
  unfold fallback_phase, find_best_match_combined in Hm, Hs. fold score in Hm, Hs.
  destruct (best_scan score (all_candidates idx) None 0) as [m s] eqn:E.
  simpl in Hm, Hs. subst m.
  destruct (best_scan_spec _ _ _ _ E) as [(Hd & _) | (l1 & c & l2 & Hall & Hd & -> & _)];
    [discriminate|].
  injection Hd as ->. exists c. repeat split; auto.
  - rewrite Hall. apply in_or_app. right. now left.
  - unfold r, resolve. rewrite H1, N. simpl.
    unfold fallback_phase, find_best_match_combined. fold score. now rewrite E.
  - intros Hin.
    pose proof (proj2 (best_scan_upper score bucket None 0) c Hin) as Hle.
    fold score in Hs. lra.
Qed.

End ResolutionFacts.

(** The state-filtered resolution of the sample target is reported. *)
Lemma resolve_counts_reported_witness :
  res_ran_fallback
    (resolve true Sample.ratio Sample.ratio (Some (py "TX"))
             (py "1 Main St") (py "Acme")
             [(py "TX", [(py "1 Main St", py "Acme", 7)])]) = false.
Proof.
  apply (proj1 (proj2 (proj2
           (resolve_counts_reported true Sample.ratio Sample.ratio
              (Some (py "TX")) (py "1 Main St") (py "Acme")
              [(py "TX", [(py "1 Main St", py "Acme", 7)])])))).
  vm_compute. reflexivity.
Defined.

(** The Texas row scores 0.4 and the row without a state 0.9: the fallback
    reports the latter. *)
Lemma fallback_match_outside_state_bucket_witness :
  exists c,
    In c (all_candidates Sample.two_bucket_index) /\ snd c = 2 /\
    score_c (combined_similarity_score true Sample2.elm_ratio Sample2.elm_ratio
               Sample.oak_target []) c
    = res_score (resolve true Sample2.elm_ratio Sample2.elm_ratio (Some (py "TX"))
                         Sample.oak_target [] Sample.two_bucket_index) /\
    ~ In c [(Sample.oak_candidate, py "Oak Facility Inc", 1)].
Proof.
  apply (@fallback_match_outside_state_bucket true Sample2.elm_ratio Sample2.elm_ratio
           nat (py "TX") Sample.oak_target [] Sample.two_bucket_index
           [(Sample.oak_candidate, py "Oak Facility Inc", 1)] 2);
    try (vm_compute; reflexivity).
  apply Qle_bool_iff. vm_compute. reflexivity.
Defined.

(* ================================================================== *)
(** * The matching loop *)
(* ================================================================== *)

Section LoopFacts.

Variable USE_RAPIDFUZZ : bool.
Variable token_set_ratio : str -> str -> Q.
Variable sequence_ratio : str -> str -> Q.
Variable hubspot_by_state : index hubspot_data.
Variable clickup_by_state : index clickup_data.
Variable corporations_candidates : list (candidate corporations_data).

Local Abbreviation run :=
  (match_all USE_RAPIDFUZZ token_set_ratio sequence_ratio
             hubspot_by_state clickup_by_state corporations_candidates).
Local Abbreviation step :=
  (match_target USE_RAPIDFUZZ token_set_ratio sequence_ratio
                hubspot_by_state clickup_by_state corporations_candidates).
Local Abbreviation hs_of :=
  (resolve_hubspot USE_RAPIDFUZZ token_set_ratio sequence_ratio hubspot_by_state).
Local Abbreviation cu_of :=
  (resolve_clickup USE_RAPIDFUZZ token_set_ratio sequence_ratio clickup_by_state).
Local Abbreviation corp_of :=
  (resolve_corp USE_RAPIDFUZZ token_set_ratio sequence_ratio corporations_candidates).

Lemma match_all_cons (st : stats) (ua fn : str) (rest : list (str * str)) :
  run st ((ua, fn) :: rest)
  = (fst (step st ua fn) :: fst (run (snd (step st ua fn)) rest),
     snd (run (snd (step st ua fn)) rest)).
Proof.
  cbn [match_all]. destruct (step st ua fn) as [row st'].
  cbn [fst snd]. now destruct (run st' rest).
Qed.

Lemma step_row_independent (st st' : stats) (ua fn : str) :
  fst (step st ua fn) = fst (step st' ua fn).
Proof. reflexivity. Qed.

Lemma match_all_rows_map (targets : list (str * str)) (st : stats) :
  fst (run st targets)
  = map (fun t => fst (step no_stats (fst t) (snd t))) targets /\
  map unique_address (fst (run st targets)) = map fst targets /\
  map facility_name (fst (run st targets)) = map snd targets.
Proof.
  revert st. induction targets as [|[ua fn] rest IH]; intros st.
  - repeat split.
  - rewrite match_all_cons. cbn [fst map].
    destruct (IH (snd (step st ua fn))) as (H1 & H2 & H3).
    rewrite H1. rewrite H1 in H2, H3. repeat split.
    + cbn [snd]. now rewrite H2.
    + cbn [snd]. now rewrite H3.
Qed.

Lemma corp_reported_iff (fn : str) :
  reported (corp_of fn) = truthy (res_match (corp_of fn)).
Proof.
  unfold reported.
  destruct (resolve_corporations_cases USE_RAPIDFUZZ token_set_ratio
              sequence_ratio fn corporations_candidates)
    as [(Hn & _) | (m & Hm & Hle)]; cbv zeta in *.
  - unfold resolve_corp. now rewrite Hn.
  - unfold resolve_corp. rewrite Hm. simpl. now apply Qgeb_le.
Qed.

Lemma match_all_counter_sums (targets : list (str * str)) (st : stats) :
  let st' := snd (run st targets) in
  hs_state_match st' + hs_fallback st'
  = hs_state_match st + hs_fallback st
    + count_if (fun t => reported (hs_of (fst t) (snd t))) targets /\
  cu_state_match st' + cu_fallback st'
  = cu_state_match st + cu_fallback st
    + count_if (fun t => reported (cu_of (fst t) (snd t))) targets /\
  corp_fallback st'
  = corp_fallback st + count_if (fun t => reported (corp_of (snd t))) targets /\
  corp_state_match st' = corp_state_match st.
Proof.
  revert st. induction targets as [|[ua fn] rest IH]; intros st.
  - cbn. repeat split; lia.
  - cbv zeta. rewrite match_all_cons. cbn [snd].
    destruct (IH (snd (step st ua fn))) as (H1 & H2 & H3 & H4).
    cbv zeta in H1, H2, H3, H4. rewrite H1, H2, H3, H4.
    unfold count_if. cbn [filter fst snd].
    unfold match_target. cbn [snd hs_state_match hs_fallback cu_state_match
                                cu_fallback corp_state_match corp_fallback].
    destruct (resolve_counter_facts USE_RAPIDFUZZ token_set_ratio
                sequence_ratio (state_of ua) ua fn hubspot_by_state)
      as (Hx & Ho & _).
    destruct (resolve_counter_facts USE_RAPIDFUZZ token_set_ratio
                sequence_ratio (state_of ua) ua fn clickup_by_state)
      as (Hx' & Ho' & _).
    cbv zeta in *. fold (hs_of ua fn) in *. fold (cu_of ua fn) in *.
    rewrite <- Ho, <- Ho'.
    assert (Hc : res_fallback (corp_of fn) = reported (corp_of fn)).
    { rewrite corp_reported_iff. unfold resolve_corp, resolve_corporations.
      destruct corporations_candidates; [reflexivity|].
      destruct (accepted _) eqn:A; [|reflexivity].
      unfold accepted in A. apply andb_true_iff in A. simpl. symmetry. apply A. }
    rewrite <- Hc.
    destruct (res_state_match (hs_of ua fn)), (res_fallback (hs_of ua fn)),
      (res_state_match (cu_of ua fn)), (res_fallback (cu_of ua fn)),
      (res_fallback (corp_of fn));
      try discriminate; cbn [bump orb List.length]; repeat split; lia.
Qed.

Lemma count_if_le (A B : Type) (f : A -> bool) (g : B -> bool) (h : A -> B)
  (l : list A) :
  (forall x, f x = true -> g (h x) = true) ->
  count_if f l <= count_if g (map h l).
Proof.
  intros Hfg. unfold count_if. induction l as [|x l IH]; simpl; auto.
  destruct (f x) eqn:E.
  - rewrite (Hfg _ E). simpl. lia.
  - destruct (g (h x)); simpl; lia.
Qed.

Lemma count_if_ext (A B : Type) (f : A -> bool) (g : B -> bool) (h : A -> B)
  (l : list A) :
  (forall x, f x = g (h x)) -> count_if f l = count_if g (map h l).
Proof.
  intros Hfg. unfold count_if. induction l as [|x l IH]; simpl; auto.
  rewrite <- Hfg. destruct (f x); simpl; lia.
Qed.

Lemma reported_score_of (D : Type) (r : resolution D) :
  reported r = true -> Qgeb (score_of r) match_threshold = true.
Proof.
  unfold reported, score_of. destruct (res_match r); [|discriminate]. simpl.
  intros H. apply Qgeb_le. apply ScoreFacts.round3_keeps_threshold.
  now apply Qgeb_le.
Qed.

(** X12.  After the loop, the total of matches the summary prints for
    HubSpot and for ClickUp is never below the sum of the two counters
    printed beside it, and for Corporations the two are equal. *)
Theorem summary_totals_cover_counters (targets : list (str * str)) :
  let rows := fst (run no_stats targets) in
  let st := snd (run no_stats targets) in
  hs_state_match st + hs_fallback st <= count_matches hubspot_match_score rows /\
  cu_state_match st + cu_fallback st <= count_matches clickup_match_score rows /\
  corp_state_match st + corp_fallback st
  = count_matches corporations_match_score rows.
Proof.
  cbv zeta. destruct (match_all_counter_sums targets no_stats) as (H1 & H2 & H3 & H4).
  cbv zeta in *. rewrite H1, H2, H3, H4. cbn [no_stats hs_state_match hs_fallback
    cu_state_match cu_fallback corp_state_match corp_fallback Nat.add].
  rewrite (proj1 (match_all_rows_map targets no_stats)).
  unfold count_matches. repeat split.
  - apply (count_if_le _ (fun r => Qgeb (hubspot_match_score r) match_threshold)).
    intros t. apply reported_score_of.
  - apply (count_if_le _ (fun r => Qgeb (clickup_match_score r) match_threshold)).
    intros t. apply reported_score_of.
  - apply (count_if_ext _ (fun r => Qgeb (corporations_match_score r) match_threshold)).
    intros t. unfold match_target. cbn [fst corporations_match_score].
    fold (corp_of (snd t)).
    destruct (reported (corp_of (snd t))) eqn:E.
    + symmetry. now apply reported_score_of.
    + rewrite corp_reported_iff in E. unfold score_of.
      destruct (res_match (corp_of (snd t))); [discriminate|]. reflexivity.
Qed.


(** X11.  Over the loop, the state-match and fallback counters of HubSpot
    and of ClickUp grow together by the number of targets whose identifiers
    are reported, the Corporations fallback counter likewise, and the
    Corporations state-match counter never changes. *)
Theorem match_all_counters (targets : list (str * str)) (st : stats) :
  let st' := snd (run st targets) in
  hs_state_match st' + hs_fallback st'
  = hs_state_match st + hs_fallback st
    + count_if (fun t => reported (hs_of (fst t) (snd t))) targets /\
  cu_state_match st' + cu_fallback st'
  = cu_state_match st + cu_fallback st
    + count_if (fun t => reported (cu_of (fst t) (snd t))) targets /\
  corp_fallback st'
  = corp_fallback st + count_if (fun t => reported (corp_of (snd t))) targets /\
  corp_state_match st' = corp_state_match st.
Proof. apply match_all_counter_sums. Qed.

End LoopFacts.

(* ================================================================== *)
(** * The task identifier of a URL *)
(* ================================================================== *)

Module TaskIdFacts.
Import ReFacts PatternFacts.

Lemma match_lit_mismatch (c x : ascii) (p : pattern) (prev : option ascii)
  (cur : str) :
  x <> c -> match_here (lit c :: p) prev (x :: cur) = None.
Proof.
  intros Hx. rewrite match_here_lit. destruct (Ascii.eqb c x) eqn:E; auto.
  apply Ascii.eqb_eq in E. congruence.
Qed.

Lemma match_lit_hit (c : ascii) (p : pattern) (prev : option ascii) (cur : str) :
  match_here (lit c :: p) prev (c :: cur)
  = option_map (shift 1) (match_here p (Some c) cur).
Proof. now rewrite match_here_lit, Ascii.eqb_refl. Qed.

(** The group and the closing parenthesis after a greedy run. *)
Lemma match_group_run (cls : ascii -> bool) (prev : option ascii) (cur : str) :
  match_here [GroupOpen; plus cls; GroupClose] prev cur =
  match count_prefix cls None cur with
  | 0 => None
  | S n => Some (MResult (S n + 0) (Some 0) (Some (S n + 0)))
  end.
Proof.
  rewrite match_here_open. unfold plus. cbn [match_here].
  destruct (count_prefix cls None cur) as [|n]; reflexivity.
Qed.

Lemma match_task_id_at (prev : option ascii) (t : str) :
  match_here pattern_task_id prev ("/" :: "t" :: "/" :: t)%char =
  match count_prefix isalnum None t with
  | 0 => None
  | S n => Some (MResult (3 + (S n + 0)) (Some 3) (Some (3 + (S n + 0))))
  end.
Proof.
  unfold pattern_task_id. rewrite !match_lit_hit, match_group_run.
  destruct (count_prefix isalnum None t); reflexivity.
Qed.

Lemma match_task_id_shape (prev : option ascii) (cur : str) (r : mresult) :
  match_here pattern_task_id prev cur = Some r ->
  exists t n,
    cur = ("/" :: "t" :: "/" :: t)%char /\
    count_prefix isalnum None t = S n /\ group1 cur r = firstn (S n) t.
Proof.
  intros H. pose proof H as H0. unfold pattern_task_id in H.
  destruct cur as [|c1 cur];
    [rewrite match_here_lit in H; discriminate H|].
  destruct (ascii_dec c1 "/") as [-> | N1];
    [|rewrite match_lit_mismatch in H by exact N1; discriminate H].
  rewrite match_lit_hit in H.
  destruct cur as [|c2 cur];
    [rewrite match_here_lit in H; discriminate H|].
  destruct (ascii_dec c2 "t") as [-> | N2];
    [|rewrite match_lit_mismatch in H by exact N2; discriminate H].
  rewrite match_lit_hit in H.
  destruct cur as [|c3 cur];
    [rewrite match_here_lit in H; discriminate H|].
  destruct (ascii_dec c3 "/") as [-> | N3];
    [|rewrite match_lit_mismatch in H by exact N3; discriminate H].
  clear H. rewrite match_task_id_at in H0.
  destruct (count_prefix isalnum None cur) as [|n] eqn:E; [discriminate|].
  injection H0 as <-. exists cur, n. repeat split; auto.
  unfold group1. cbn [gopen gclose skipn]. f_equal. lia.
Qed.

Lemma group_is_alnum (t : str) (n : nat) :
  n <= count_prefix isalnum None t -> all_in isalnum (firstn n t).
Proof. intros H. now apply (@count_prefix_firstn isalnum t None n). Qed.

(** X18.  The extracted task identifier consists of ASCII letters and
    digits only, whatever the argument. *)
Theorem task_id_is_alphanumeric (url : pyobj) :
  all_in isalnum (extract_clickup_task_id url).
Proof.
  destruct url as [| |u]; try constructor. simpl.
  destruct (nonempty u); [|constructor].
  destruct (search pattern_task_id u) as [g|] eqn:E; [|constructor].
  unfold search in E. apply search_from_leftmost in E.
  destruct E as (pre & rest & r & _ & Hm & <- & _).
  apply match_task_id_shape in Hm. destruct Hm as (t & n & _ & Hc & ->).
  apply group_is_alnum. lia.
Qed.

Lemma search_skip (p : pattern) (prev : option ascii) (c : ascii) (cur : str) :
  match_here p prev (c :: cur) = None ->
  search_from p prev (c :: cur) = search_from p (Some c) cur.
Proof. intros H. cbn [search_from]. now rewrite H. Qed.

Lemma task_id_not_here_1 (prev : option ascii) (c : ascii) (cur : str) :
  c <> "/"%char -> match_here pattern_task_id prev (c :: cur) = None.
Proof. intros H. now apply match_lit_mismatch. Qed.

Lemma task_id_not_here_2 (prev : option ascii) (c : ascii) (cur : str) :
  c <> "t"%char ->
  match_here pattern_task_id prev ("/"%char :: c :: cur) = None.
Proof.
  intros H. unfold pattern_task_id. now rewrite match_lit_hit, match_lit_mismatch.
Qed.

(** X19.  From a URL [https://app.clickup.com/t/<id>] followed by nothing
    or by a character that is no letter or digit, the identifier [<id>] is
    read back. *)
Theorem task_id_of_task_url (id rest : str) :
  id <> [] -> all_in isalnum id ->
  match rest with [] => True | c :: _ => isalnum c = false end ->
  extract_clickup_task_id (PyStr (py "https://app.clickup.com/t/" ++ id ++ rest))
  = id.
Proof.
  intros Hne Hid Hrest. unfold extract_clickup_task_id.
  cbn [py list_ascii_of_string app nonempty]. unfold search.
  repeat (rewrite search_skip
            by (first [ apply task_id_not_here_1; discriminate
                      | apply task_id_not_here_2; discriminate ])).
  cbn [search_from]. rewrite match_task_id_at.
  rewrite (@count_prefix_unbounded isalnum id rest Hid Hrest).
  destruct id as [|c id]; [contradiction|]. cbn [List.length].
  unfold group1. cbn [gopen gclose skipn].
  replace (3 + (S (List.length id) + 0) - 3) with (List.length (c :: id))
    by (simpl; lia).
  rewrite firstn_app, Nat.sub_diag, firstn_all. cbn [firstn].
  now rewrite app_nil_r.
Qed.

Lemma task_id_of_task_url_witness :
  extract_clickup_task_id
    (PyStr (py "https://app.clickup.com/t/" ++ py "86a2vwzc1" ++ py "?comment=1"))
  = py "86a2vwzc1".
Proof.
  apply task_id_of_task_url; [discriminate | repeat constructor | reflexivity].
Defined.


Lemma search_from_finds (p : pattern) (pre rest : str) :
  forall prev,
    match_here p (before prev pre) rest <> None ->
    search_from p prev (pre ++ rest) <> None.
Proof.
  induction pre as [|c pre IH]; intros prev H.
  - unfold before, last_char in H. simpl in H. simpl.
    destruct rest as [|x rest]; cbn [search_from];
      destruct (match_here p prev _); congruence.
  - cbn [app search_from].
    destruct (match_here p prev (c :: pre ++ rest)); [discriminate|].
    apply IH. rewrite before_cons in H. exact H.
Qed.

(** X20.  The result is non-empty exactly when the URL contains [/t/]
    followed by a letter or a digit. *)
Theorem task_id_found_iff (u : str) :
  extract_clickup_task_id (PyStr u) <> [] <->
  exists pre c t, u = pre ++ py "/t/" ++ c :: t /\ isalnum c = true.
Proof.
  unfold extract_clickup_task_id. split.
  - destruct (nonempty u); [|congruence].
    destruct (search pattern_task_id u) as [g|] eqn:E; [|congruence].
    intros _. unfold search in E. apply search_from_leftmost in E.
    destruct E as (pre & rest & r & -> & Hm & _ & _).
    apply match_task_id_shape in Hm. destruct Hm as (t & n & -> & Hc & _).
    destruct t as [|c t]; [discriminate|].
    exists pre, c, t. split; [reflexivity|].
    simpl in Hc. now destruct (isalnum c).
  - intros (pre & c & t & -> & Hc).
    assert (Hn : nonempty (pre ++ py "/t/" ++ c :: t) = true)
      by (destruct pre; reflexivity).
    rewrite Hn.
    destruct (search pattern_task_id (pre ++ py "/t/" ++ c :: t)) as [g|] eqn:E.
    + unfold search in E. apply search_from_leftmost in E.
      destruct E as (pre' & rest' & r & _ & Hm & <- & _).
      apply match_task_id_shape in Hm. destruct Hm as (t' & n & _ & Hc' & ->).
      destruct t' as [|c' t']; [discriminate|]. discriminate.
    + exfalso. revert E. apply search_from_finds.
      cbn [py list_ascii_of_string app]. rewrite match_task_id_at.
      simpl. now rewrite Hc.
Qed.

Lemma task_id_found_iff_witness :
  extract_clickup_task_id (PyStr (py "https://app.clickup.com/t/86a2vwzc1")) <> [].
Proof.
  apply (proj2 (task_id_found_iff (py "https://app.clickup.com/t/86a2vwzc1"))).
  exists (py "https://app.clickup.com"), "8"%char, (py "6a2vwzc1").
  split; reflexivity.
Defined.

End TaskIdFacts.

(* ================================================================== *)
(** * Names *)
(* ================================================================== *)

Module NameFacts.
Import Contacts StrFacts NormalFacts.

Lemma split_acc_spaces (s : str) :
  Forall (fun c => isspace c = true) s -> split_acc s [] = [].
Proof. induction 1 as [|c s Hc _ IH]; simpl; auto. now rewrite Hc. Qed.

Lemma split_acc_tokens (s : str) :
  forall word,
    Forall (fun c => isspace c = false) word ->
    Forall token (split_acc s word).
Proof.
  induction s as [|c s IH]; intros word Hw; simpl.
  - destruct word as [|x w]; constructor; auto. split.
    + intros E. apply (f_equal (@List.length ascii)) in E.
      rewrite length_rev in E. discriminate.
    + now apply Forall_rev.
  - destruct (isspace c) eqn:Hc.
    + destruct word as [|x w]; [apply IH; constructor|].
      constructor; [|apply IH; constructor]. split.
      * intros E. apply (f_equal (@List.length ascii)) in E.
        rewrite length_rev in E. discriminate.
      * now apply Forall_rev.
    + apply IH. constructor; auto.
Qed.

Lemma split_tokens (s : str) : Forall token (split s).
Proof. apply split_acc_tokens. constructor. Qed.

(** Leading white space does not change the tokens. *)
Lemma split_lstrip (s : str) : split (lstrip s) = split s.
Proof.
  unfold split. induction s as [|c s IH]; simpl; auto.
  destruct (isspace c) eqn:Hc; auto. simpl. now rewrite Hc.
Qed.

Lemma split_acc_app_spaces (s t : str) :
  Forall (fun c => isspace c = true) t ->
  forall word, split_acc (s ++ t) word = split_acc s word.
Proof.
  intros Ht. induction s as [|c s IH]; intros word; simpl.
  - destruct t as [|x t]; [reflexivity|].
    inversion Ht as [|? ? Hx Ht']; subst. simpl. rewrite Hx.
    rewrite (split_acc_spaces Ht'). now destruct word.
  - destruct (isspace c); [destruct word|]; now rewrite ?IH.
Qed.

Lemma split_strip (s : str) : split (strip s) = split s.
Proof.
  unfold strip. rewrite <- (split_lstrip s).
  destruct (rstrip_prefix (lstrip s)) as (t & Hs & Ht).
  rewrite Hs at 2. unfold split. now rewrite split_acc_app_spaces.
Qed.

Lemma split_acc_word (w : str) :
  Forall (fun c => isspace c = false) w ->
  forall s acc,
    split_acc (w ++ s) acc
    = match s with
      | [] => match rev w ++ acc with [] => [] | _ => [rev (rev w ++ acc)] end
      | _ => split_acc s (rev w ++ acc)
      end.
Proof.
  induction 1 as [|c w Hc _ IH]; intros s acc.
  - simpl. destruct s; reflexivity.
  - simpl. rewrite Hc, IH. rewrite <- app_assoc. simpl.
    destruct s; reflexivity.
Qed.

Lemma split_token (t : str) : token t -> split t = [t].
Proof.
  intros [Hne Hf]. unfold split.
  rewrite <- (app_nil_r t) at 1. rewrite (split_acc_word Hf).
  rewrite app_nil_r. destruct (rev t) eqn:E.
  - apply (f_equal (@rev ascii)) in E. rewrite rev_involutive in E. contradiction.
  - rewrite <- E. now rewrite rev_involutive.
Qed.

Lemma split_join (toks : list str) :
  Forall token toks -> split (join (py " ") toks) = toks.
Proof.
  induction 1 as [|t toks Ht HF IH]; [reflexivity|].
  destruct toks as [|t' toks]; [simpl; now apply split_token|].
  change (join (py " ") (t :: t' :: toks))
    with (t ++ " "%char :: join (py " ") (t' :: toks)).
  unfold split. destruct Ht as [Hne Hf]. rewrite (split_acc_word Hf).
  rewrite app_nil_r. cbn [split_acc]. change (isspace " ") with true. cbv iota.
  destruct (rev t) eqn:E.
  - apply (f_equal (@rev ascii)) in E. rewrite rev_involutive in E. contradiction.
  - rewrite <- E, rev_involutive. f_equal. exact IH.
Qed.

Lemma split_acc_nil (s : str) :
  forall acc, split_acc s acc = [] ->
              acc = [] /\ Forall (fun c => isspace c = true) s.
Proof.
  induction s as [|c s IH]; intros acc; simpl.
  - destruct acc; [auto | discriminate].
  - destruct (isspace c) eqn:Hc.
    + destruct acc; [|discriminate]. intros H. destruct (IH _ H). auto.
    + intros H. destruct (IH _ H). discriminate.
Qed.

Lemma split_nil_iff (s : str) :
  split s = [] <-> Forall (fun c => isspace c = true) s.
Proof.
  split; [intros H; now apply split_acc_nil in H | apply split_acc_spaces].
Qed.

(** X21.  [split_name] raises (the [IndexError] of [parts[0]]) exactly on a
    non-empty name made of white space only. *)
Theorem split_name_fails_iff (full_name : option str) :
  split_name full_name = None <->
  exists s, full_name = Some s /\ s <> [] /\
            Forall (fun c => isspace c = true) s.
Proof.
  destruct full_name as [s|]; simpl.
  - destruct s as [|c s].
    + split; [discriminate|]. intros (s & [= <-] & Hne & _). contradiction.
    + rewrite split_strip.
      destruct (split (c :: s)) as [|a [|b [|x rest]]] eqn:E.
      * split; auto. intros _. exists (c :: s).
        repeat split; [discriminate | now apply split_nil_iff].
      * split; [discriminate|]. intros (s' & [= <-] & _ & H).
        apply split_nil_iff in H. congruence.
      * split; [discriminate|]. intros (s' & [= <-] & _ & H).
        apply split_nil_iff in H. congruence.
      * split; [discriminate|]. intros (s' & [= <-] & _ & H).
        apply split_nil_iff in H. congruence.
  - split; [discriminate|]. intros (s & H & _). discriminate.
Qed.

(** X22.  When [split_name] returns on a non-empty name, the first name is
    one token without white space and the white-space separated tokens of
    the name are the first name followed by the tokens of the last name. *)
Theorem split_name_tokens (s f l : str) :
  split_name (Some s) = Some (f, l) -> s <> [] ->
  split s = f :: split l /\ token f.
Proof.
  intros H Hne. destruct s as [|c s]; [contradiction|].
  simpl in H. rewrite split_strip in H.
  pose proof (split_tokens (c :: s)) as Ht.
  destruct (split (c :: s)) as [|a [|b [|x rest]]] eqn:E; [discriminate| | |].
  - injection H as <- <-. inversion Ht; subst. split; auto.
  - injection H as <- <-. inversion Ht as [|? ? Ha Hr]; subst.
    inversion Hr as [|? ? Hb _]; subst. split; auto.
    now rewrite (split_token Hb).
  - injection H as <- <-. inversion Ht as [|? ? Ha Hr]; subst. split; auto.
    f_equal. symmetry. exact (split_join Hr).
Qed.

Lemma split_name_fails_iff_witness :
  split_name (Some (py "  ")) = None.
Proof.
  apply (proj2 (split_name_fails_iff (Some (py "  ")))).
  exists (py "  "). repeat split; [discriminate | repeat constructor].
Defined.

Lemma split_name_tokens_witness :
  split (py "  Mary  Jane Watson ") = py "Mary" :: split (py "Jane Watson") /\
  token (py "Mary").
Proof.
  apply (@split_name_tokens (py "  Mary  Jane Watson ") (py "Mary") (py "Jane Watson"));
    [vm_compute; reflexivity | discriminate].
Defined.

End NameFacts.

(* ================================================================== *)
(** * Dictionaries *)
(* ================================================================== *)

Module DictFacts.
Import IndexFacts.

Lemma dict_get_set_same (V : Type) (k : str) (v : V) (d : dict V) :
  dict_get k (dict_set k v d) = Some v.
Proof.
  induction d as [|[k' v'] d IH]; simpl.
  - now rewrite str_eqb_refl.
  - destruct (str_eqb k' k) eqn:E; simpl; now rewrite E.
Qed.

Lemma dict_get_set_other (V : Type) (k k' : str) (v : V) (d : dict V) :
  k' <> k -> dict_get k (dict_set k' v d) = dict_get k d.
Proof.
  intros Hne. apply str_eqb_neq in Hne.
  induction d as [|[k0 v0] d IH]; simpl.
  - now rewrite Hne.
  - destruct (str_eqb k0 k') eqn:E; simpl.
    + destruct (str_eqb k0 k) eqn:E'; auto.
      apply str_eqb_eq in E, E'. subst.
      rewrite str_eqb_refl in Hne. discriminate.
    + now rewrite IH.
Qed.

Lemma find_app_last (A : Type) (f : A -> bool) (l : list A) (x : A) :
  find f (l ++ [x])
  = match find f l with
    | Some y => Some y
    | None => if f x then Some x else None
    end.
Proof.
  induction l as [|y l IH]; simpl; [reflexivity|]. now destruct (f y).
Qed.

(** Assignments in a loop: the last row with the key decides. *)
Lemma fold_set_get (A V : Type) (key : A -> option str) (val : A -> V)
  (rows : list A) (k : str) :
  forall d,
    dict_get k (fold_left (fun d r => match key r with
                                      | Some k' => dict_set k' (val r) d
                                      | None => d
                                      end) rows d)
    = match find_last (fun r => match key r with
                                | Some k' => str_eqb k' k
                                | None => false
                                end) rows with
      | Some r => Some (val r)
      | None => dict_get k d
      end.
Proof.
  unfold find_last. induction rows as [|r rows IH]; intros d; simpl; auto.
  rewrite IH, find_app_last.
  destruct (find _ (rev rows)); auto.
  destruct (key r) as [k'|]; auto.
  destruct (str_eqb k' k) eqn:E.
  - apply str_eqb_eq in E. subst. apply dict_get_set_same.
  - apply dict_get_set_other. now apply str_eqb_neq.
Qed.

End DictFacts.

(* ================================================================== *)
(** * Existing contacts *)
(* ================================================================== *)

Module LookupFacts.
Import Contacts DictFacts IndexFacts.

Lemma note_contact_fst (rows : list hs_contact) :
  forall lk,
    fst (fold_left note_contact rows lk)
    = fold_left (fun d r => match (if nonempty (key_part (hs_email r))
                                   then Some (key_part (hs_email r)) else None) with
                            | Some k' => dict_set k' (entry_of r) d
                            | None => d
                            end) rows (fst lk).
Proof.
  induction rows as [|r rows IH]; intros lk; simpl; auto.
  rewrite IH. simpl. now destruct (nonempty (key_part (hs_email r))).
Qed.

Lemma note_contact_snd (rows : list hs_contact) :
  forall lk,
    snd (fold_left note_contact rows lk)
    = fold_left (fun d r =>
                   match (if nonempty (key_part (hs_first_name r))
                             && nonempty (key_part (hs_last_name r))
                          then Some (name_key (key_part (hs_first_name r))
                                              (key_part (hs_last_name r)))
                          else None) with
                   | Some k' => dict_set k' (entry_of r) d
                   | None => d
                   end) rows (snd lk).
Proof.
  induction rows as [|r rows IH]; intros lk; simpl; auto.
  rewrite IH. simpl.
  now destruct (nonempty (key_part (hs_first_name r))
                && nonempty (key_part (hs_last_name r))).
Qed.

Lemma find_ext (A : Type) (f g : A -> bool) (l : list A) :
  (forall x, f x = g x) -> find f l = find g l.
Proof.
  intros H. induction l as [|x l IH]; simpl; auto. now rewrite H, IH.
Qed.

(** X23.  Over the lookups built from the contacts table, the check returns
    the entry of the last row whose lower-cased, trimmed email is that of
    the contact, when the contact has an email and such a row exists;
    otherwise, when the contact has both names, the entry of the last row
    whose name key is that of the contact; otherwise nothing. *)
Theorem existing_contact_is_last_match (rows : list hs_contact)
  (first_name last_name email : str) :
  check_hubspot_contact_exists (fst (load_lookups rows)) (snd (load_lookups rows))
                               first_name last_name email
  = match (if nonempty email then find_last (same_email email) rows else None) with
    | Some r => Some (entry_of r)
    | None =>
        if nonempty first_name && nonempty last_name
        then option_map entry_of (find_last (same_name first_name last_name) rows)
        else None
    end.
Proof.
  unfold check_hubspot_contact_exists, load_lookups.
  rewrite note_contact_fst, note_contact_snd. cbn [fst snd].
  rewrite !fold_set_get. cbn [dict_get]. unfold find_last.
  assert (He : find (fun r => match (if nonempty (key_part (hs_email r))
                                     then Some (key_part (hs_email r)) else None) with
                              | Some k' => str_eqb k' (key_part (Some email))
                              | None => false
                              end) (rev rows)
               = find (same_email email) (rev rows)).
  { apply find_ext. intros r. unfold same_email.
    now destruct (nonempty (key_part (hs_email r))). }
  assert (Hn : find (fun r =>
                       match (if nonempty (key_part (hs_first_name r))
                                 && nonempty (key_part (hs_last_name r))
                              then Some (name_key (key_part (hs_first_name r))
                                                  (key_part (hs_last_name r)))
                              else None) with
                       | Some k' =>
                           str_eqb k' (name_key (key_part (Some first_name))
                                                (key_part (Some last_name)))
                       | None => false
                       end) (rev rows)
               = find (same_name first_name last_name) (rev rows)).
  { apply find_ext. intros r. unfold same_name.
    now destruct (nonempty (key_part (hs_first_name r))
                  && nonempty (key_part (hs_last_name r))). }
  rewrite He, Hn.
  destruct (nonempty email).
  - destruct (find (same_email email) (rev rows)); [reflexivity|].
    destruct (nonempty first_name && nonempty last_name); [|reflexivity].
    now destruct (find (same_name first_name last_name) (rev rows)).
  - destruct (nonempty first_name && nonempty last_name); [|reflexivity].
    now destruct (find (same_name first_name last_name) (rev rows)).
Qed.

End LookupFacts.

(* ================================================================== *)
(** * Facility names *)
(* ================================================================== *)

Module FacilityFacts.
Import Contacts DictFacts IndexFacts NormalFacts.

Lemma note_facility_get (d : dict str) (e : employee) (a : str) :
  dict_get a (note_facility d e)
  = match dict_get a d with
    | Some f => Some f
    | None => if gives_facility a e
              then Some (stripped (employee_facility e)) else None
    end.
Proof.
  unfold note_facility, gives_facility.
  destruct (nonempty (stripped (employee_address e))
            && nonempty (stripped (employee_facility e))) eqn:C; simpl.
  - destruct (str_eqb (stripped (employee_address e)) a) eqn:E.
    + apply str_eqb_eq in E. subst a.
      destruct (dict_get (stripped (employee_address e)) d) eqn:G; auto.
      apply dict_get_set_same.
    + destruct (dict_get (stripped (employee_address e)) d) eqn:G.
      * now destruct (dict_get a d).
      * rewrite dict_get_set_other by now apply str_eqb_neq.
        now destruct (dict_get a d).
  - now destruct (dict_get a d).
Qed.

Lemma fold_note_facility (employees : list employee) (a : str) :
  forall d,
    dict_get a (fold_left note_facility employees d)
    = match dict_get a d with
      | Some f => Some f
      | None => option_map (fun e => stripped (employee_facility e))
                           (find (gives_facility a) employees)
      end.
Proof.
  induction employees as [|e es IH]; intros d; simpl.
  - now destruct (dict_get a d).
  - rewrite IH, note_facility_get.
    destruct (dict_get a d); auto. now destruct (gives_facility a e).
Qed.

(** X15.  The facility name of a unique address is the trimmed facility of
    the first employee row whose trimmed address equals it and whose
    facility is not blank, and empty when there is none; a unique address
    with white space at an end gets none. *)
Theorem facility_name_is_first_match (employees : list employee) (unique_addr : str) :
  facility_name_of employees unique_addr
  = match find (gives_facility unique_addr) employees with
    | Some e => stripped (employee_facility e)
    | None => []
    end
  /\
  (strip unique_addr <> unique_addr -> facility_name_of employees unique_addr = []).
Proof.
  assert (H : facility_name_of employees unique_addr
              = match find (gives_facility unique_addr) employees with
                | Some e => stripped (employee_facility e)
                | None => []
                end).
  { unfold facility_name_of, address_to_facility. rewrite fold_note_facility.
    simpl. now destruct (find _ employees). }
  split; [exact H|]. intros Hs. rewrite H.
  destruct (find (gives_facility unique_addr) employees) as [e|] eqn:F; auto.
  apply find_some in F. destruct F as [_ F]. unfold gives_facility in F.
  apply andb_true_iff in F. destruct F as [_ F]. apply str_eqb_eq in F.
  exfalso. apply Hs. rewrite <- F. unfold stripped.
  destruct (strip_trimmed (fillna (employee_address e))) as [H1 H2].
  now apply strip_fixed.
Qed.

Lemma facility_name_is_first_match_witness :
  facility_name_of [Employee (Some (py "1 Main St")) (Some (py "Oak"))]
                   (py " 1 Main St") = [].
Proof.
  apply (proj2 (facility_name_is_first_match
                  [Employee (Some (py "1 Main St")) (Some (py "Oak"))]
                  (py " 1 Main St"))).
  vm_compute. discriminate.
Defined.

End FacilityFacts.

(* ================================================================== *)
(** * HubSpot addresses *)
(* ================================================================== *)

Module AddressFacts.
Import Contacts IndexFacts.

Lemma join_nonempty (sep : str) (parts : list str) (x : str) :
  In x parts -> x <> [] -> join sep parts <> [].
Proof.
  induction parts as [|y parts IH]; [intros []|].
  intros Hin Hx. destruct parts as [|z parts].
  - destruct Hin as [-> | []]. exact Hx.
  - change (join sep (y :: z :: parts)) with (y ++ sep ++ join sep (z :: parts)).
    destruct Hin as [-> | Hin].
    + destruct x; [contradiction | discriminate].
    + intros E. apply app_eq_nil in E. destruct E as [_ E].
      apply app_eq_nil in E. destruct E as [_ E]. now apply IH in E.
Qed.

Lemma field_part_text (v : option str) :
  has_text v -> exists x, field_part v = [x] /\ x <> [].
Proof.
  intros (s & -> & Hs). simpl. destruct s as [|c s]; [contradiction|].
  exists (strip (c :: s)). auto.
Qed.

Lemma field_part_blank (v : option str) :
  v = None \/ v = Some [] -> field_part v = [].
Proof. now intros [-> | ->]. Qed.

(** X13.  A HubSpot row with text other than white space in one of its six
    address cells gets a non-empty address; a row whose six cells are all
    missing or empty gets the empty address. *)
Theorem build_hubspot_address_empty (row : hubspot_row) :
  (Exists has_text (address_fields row) ->
   nonempty (build_hubspot_address row) = true)
  /\
  (Forall (fun v => v = None \/ v = Some []) (address_fields row) ->
   build_hubspot_address row = []).
Proof.
  unfold address_fields, build_hubspot_address. split.
  - intros H.
    assert (Hne : forall s : str, s <> [] -> nonempty s = true)
      by (intros [|c s] Hs; [contradiction | reflexivity]).
    apply Hne.
    set (csz := field_part (properties_city row) ++ field_part (properties_state row)
                ++ field_part (properties_zip row)).
    assert (Hcsz : forall x, In x csz -> x <> [] ->
                             exists y, y <> [] /\
                               In y (match csz with
                                     | [] => field_part (properties_address row)
                                             ++ field_part (properties_address2 row)
                                     | _ :: _ =>
                                         (field_part (properties_address row)
                                          ++ field_part (properties_address2 row))
                                         ++ [join (py ", ") csz]
                                     end)).
    { intros x Hin Hx. exists (join (py ", ") csz). split.
      - now apply (join_nonempty _ _ Hin).
      - destruct csz; [destruct Hin|]. apply in_or_app. right. now left. }
    assert (Hpre : forall x,
               In x (field_part (properties_address row)
                     ++ field_part (properties_address2 row)) ->
               In x (match csz with
                     | [] => field_part (properties_address row)
                             ++ field_part (properties_address2 row)
                     | _ :: _ =>
                         (field_part (properties_address row)
                          ++ field_part (properties_address2 row))
                         ++ [join (py ", ") csz]
                     end)).
    { intros x Hin. destruct csz; auto. apply in_or_app. now left. }
    repeat (apply Exists_cons in H; destruct H as [H | H]);
      try (apply field_part_text in H; destruct H as (x & Hf & Hx)).
    + apply (@join_nonempty _ _ x); auto. apply in_or_app. left.
      apply Hpre. rewrite Hf. now left.
    + apply (@join_nonempty _ _ x); auto. apply in_or_app. left.
      apply Hpre. apply in_or_app. right. rewrite Hf. now left.
    + destruct (Hcsz x) as (y & Hy & Hin); auto.
      { unfold csz. rewrite Hf. now left. }
      apply (@join_nonempty _ _ y); auto. apply in_or_app. now left.
    + destruct (Hcsz x) as (y & Hy & Hin); auto.
      { unfold csz. apply in_or_app. right. rewrite Hf. now left. }
      apply (@join_nonempty _ _ y); auto. apply in_or_app. now left.
    + destruct (Hcsz x) as (y & Hy & Hin); auto.
      { unfold csz. apply in_or_app. right. apply in_or_app. right.
        rewrite Hf. now left. }
      apply (@join_nonempty _ _ y); auto. apply in_or_app. now left.
    + apply (@join_nonempty _ _ x); auto. apply in_or_app. right.
      rewrite Hf. now left.
    + inversion H.
  - intros H.
    repeat match goal with
           | H : Forall _ (_ :: _) |- _ =>
               let H1 := fresh "B" in
               inversion H as [|? ? H1 ?]; subst; clear H;
               apply field_part_blank in H1; rewrite H1
           end.
    reflexivity.
Qed.

Lemma build_hubspot_address_empty_witness :
  nonempty (build_hubspot_address
              (HubspotRow None None (Some (py "Austin")) (Some (py "TX"))
                          None None None None None)) = true.
Proof.
  apply (proj1 (build_hubspot_address_empty _)).
  apply Exists_cons_tl, Exists_cons_tl, Exists_cons_hd.
  exists (py "Austin"). split; [reflexivity | vm_compute; discriminate].
Defined.

(** X14.  The candidates of the HubSpot index are exactly the candidates
    built from the rows whose built address is not empty. *)
Theorem hubspot_index_candidates (rows : list hubspot_row) (c : candidate hubspot_data) :
  In c (all_candidates (hubspot_index rows)) <->
  exists row, In row rows /\ c = hubspot_candidate row /\
              nonempty (build_hubspot_address row) = true.
Proof.
  unfold hubspot_index.
  destruct (@fold_index_perm _ (map hubspot_candidate rows) []) as [Hp _];
    [constructor|]. cbn [all_candidates flat_map app] in Hp.
  fold (build_index (map hubspot_candidate rows)) in Hp.
  split.
  - intros H. apply (Permutation_in _ Hp) in H.
    apply filter_In in H. destruct H as [H Hi].
    apply in_map_iff in H. destruct H as (row & <- & Hrow).
    exists row. repeat split; auto.
  - intros (row & Hrow & -> & Hn).
    apply (Permutation_in _ (Permutation_sym Hp)).
    apply filter_In. split; [now apply in_map | exact Hn].
Qed.

Lemma hubspot_index_candidates_witness :
  exists row,
    In row [HubspotRow (Some (py "1 Main St")) None None None None None
                       (Some (py "Acme")) None None] /\
    hubspot_candidate
      (HubspotRow (Some (py "1 Main St")) None None None None None
                  (Some (py "Acme")) None None) = hubspot_candidate row /\
    nonempty (build_hubspot_address row) = true.
Proof.
  apply (proj1 (hubspot_index_candidates
                  [HubspotRow (Some (py "1 Main St")) None None None None None
                              (Some (py "Acme")) None None] _)).
  vm_compute. now left.
Defined.

End AddressFacts.

(* ================================================================== *)
(** * More on deduplication and normalisation *)
(* ================================================================== *)

Module MoreFacts.
Import Contacts ContactFacts StrFacts NormalFacts.

Lemma drop_duplicates_from_fixed (rows : list enriched) :
  forall seen,
    NoDup (map dedup_key rows) ->
    (forall e, In e rows -> ~ In (dedup_key e) seen) ->
    drop_duplicates_from seen rows = rows.
Proof.
  induction rows as [|e rows IH]; intros seen Hnd Hseen; simpl; auto.
  inversion Hnd as [|? ? He Hnd']; subst.
  assert (E : existsb (str_eqb (dedup_key e)) seen = false).
  { apply not_true_iff_false. rewrite seen_spec. apply Hseen. now left. }
  rewrite E. f_equal. apply IH; auto.
  intros x Hx [Hk | Hk].
  - apply He. rewrite Hk. now apply in_map.
  - apply (Hseen x); auto. now right.
Qed.

(** X24.  Deduplicating a deduplicated table changes nothing, and
    deduplication never yields more rows than it was given. *)
Theorem drop_duplicates_idempotent (rows : list enriched) :
  drop_duplicates (drop_duplicates rows) = drop_duplicates rows /\
  List.length (drop_duplicates rows) <= List.length rows.
Proof.
  split.
  - unfold drop_duplicates at 1. apply drop_duplicates_from_fixed.
    + apply drop_duplicates_from_NoDup.
    + intros e _ [].
  - unfold drop_duplicates. generalize (@nil str).
    induction rows as [|e rows IH]; intros seen; simpl; auto.
    destruct (existsb _ seen); simpl.
    + specialize (IH seen). lia.
    + specialize (IH (dedup_key e :: seen)). lia.
Qed.

Lemma collapse_ws_length (s : str) :
  forall b, List.length (collapse_ws b s) <= List.length s.
Proof.
  induction s as [|c s IH]; intros b; simpl; auto.
  destruct (isspace c); [destruct b|]; simpl.
  - specialize (IH true). lia.
  - specialize (IH true). lia.
  - specialize (IH false). lia.
Qed.

(** X16.  A normalised address is never longer than the address. *)
Theorem normalize_address_length (a : str) :
  List.length (normalize_address (PyStr a)) <= List.length a.
Proof.
  rewrite normalize_address_body.
  eapply Nat.le_trans; [apply strip_length|].
  eapply Nat.le_trans; [apply drop_suffix_length|].
  eapply Nat.le_trans; [apply drop_suffix_length|].
  eapply Nat.le_trans; [apply collapse_ws_length|].
  eapply Nat.le_trans; [apply strip_length|].
  unfold lower. now rewrite length_map.
Qed.

End MoreFacts.

(* ================================================================== *)
(** * Case of the address and the state bucket *)
(* ================================================================== *)

Module CaseFacts.
Import ReFacts PatternFacts StateFacts IndexFacts.

Lemma try_counts_ext (A : Type) (k k' : nat -> option A) (lo n : nat) :
  (forall j, k j = k' j) -> try_counts k lo n = try_counts k' lo n.
Proof.
  intros H. induction n as [|n IH]; simpl; rewrite H; [reflexivity|].
  now rewrite IH.
Qed.

Lemma count_prefix_map (f : ascii -> ascii) (cls : ascii -> bool) (s : str) :
  (forall c, cls (f c) = cls c) ->
  forall hi, count_prefix cls hi (map f s) = count_prefix cls hi s.
Proof.
  intros H. induction s as [|c s IH]; intros hi; simpl.
  - reflexivity.
  - rewrite H, IH. reflexivity.
Qed.

Lemma prev_after_map (f : ascii -> ascii) (prev : option ascii) (cur : str) (k : nat) :
  prev_after (option_map f prev) (map f cur) k = option_map f (prev_after prev cur k).
Proof.
  destruct k as [|k]; simpl; auto. now rewrite nth_error_map.
Qed.

Section Mapped.

Variable f : ascii -> ascii.
Hypothesis f_word : forall c, isword (f c) = isword c.
Hypothesis f_newline : forall c, (code (f c) =? 10) = (code c =? 10).

Lemma at_end_map (cur : str) : at_end (map f cur) = at_end cur.
Proof. destruct cur as [|c [|d cur]]; simpl; auto. Qed.

Lemma at_boundary_map (prev : option ascii) (cur : str) :
  at_boundary (option_map f prev) (map f cur) = at_boundary prev cur.
Proof.
  unfold at_boundary. destruct prev as [c|], cur as [|x cur]; simpl;
    now rewrite ?f_word.
Qed.

(** Matching the mapped text gives the same positions. *)
Lemma match_here_map (p : pattern) :
  stable_under f p ->
  forall prev cur,
    match_here p (option_map f prev) (map f cur) = match_here p prev cur.
Proof.
  induction 1 as [|i p Hi Hp IH]; intros prev cur; [reflexivity|].
  destruct i as [cls lo hi| | | |]; cbn [match_here].
  - rewrite (count_prefix_map f cls cur Hi). apply try_counts_ext. intros j.
    now rewrite prev_after_map, skipn_map, IH.
  - now rewrite IH.
  - now rewrite IH.
  - now rewrite at_boundary_map, IH.
  - now rewrite at_end_map, IH.
Qed.

Lemma group1_map (cur : str) (r : mresult) :
  group1 (map f cur) r = map f (group1 cur r).
Proof.
  unfold group1. destruct (gopen r), (gclose r); auto.
  now rewrite skipn_map, firstn_map.
Qed.

Lemma search_from_map (p : pattern) (cur : str) :
  stable_under f p ->
  forall prev,
    search_from p (option_map f prev) (map f cur)
    = option_map (map f) (search_from p prev cur).
Proof.
  intros Hp. induction cur as [|c cur IH]; intros prev.
  - cbn [map search_from].
    pose proof (match_here_map Hp prev (@nil ascii)) as E. cbn [map] in E.
    rewrite E. destruct (match_here p prev []); simpl; auto.
    now rewrite <- group1_map.
  - cbn [map search_from].
    pose proof (match_here_map Hp prev (c :: cur)) as E. cbn [map] in E.
    rewrite E. destruct (match_here p prev (c :: cur)); simpl.
    + change (f c :: map f cur) with (map f (c :: cur)).
      now rewrite <- group1_map.
    + apply (IH (Some c)).
Qed.

End Mapped.

Lemma lower_word (c : ascii) : isword (lower_char c) = isword c.
Proof. destruct c as [[] [] [] [] [] [] [] []]; reflexivity. Qed.

Lemma lower_newline (c : ascii) : (code (lower_char c) =? 10) = (code c =? 10).
Proof. destruct c as [[] [] [] [] [] [] [] []]; reflexivity. Qed.

Lemma lower_space (c : ascii) : isspace (lower_char c) = isspace c.
Proof. destruct c as [[] [] [] [] [] [] [] []]; reflexivity. Qed.

Lemma lower_letter (c : ascii) : isletter (lower_char c) = isletter c.
Proof. destruct c as [[] [] [] [] [] [] [] []]; reflexivity. Qed.

Lemma lower_digit (c : ascii) : isdigit (lower_char c) = isdigit c.
Proof. destruct c as [[] [] [] [] [] [] [] []]; reflexivity. Qed.

Lemma lower_comma (c : ascii) :
  Ascii.eqb ","%char (lower_char c) = Ascii.eqb ","%char c.
Proof. destruct c as [[] [] [] [] [] [] [] []]; reflexivity. Qed.

Lemma upper_lower_letter (c : ascii) :
  isletter c = true -> upper_char (lower_char c) = upper_char c.
Proof. destruct c as [[] [] [] [] [] [] [] []]; vm_compute; congruence. Qed.

Lemma patterns_stable (p : pattern) :
  In p patterns -> stable_under lower_char p.
Proof.
  intros [<- | [<- | [<- | []]]]; unfold stable_under;
    repeat (apply Forall_cons; [| ]); try apply Forall_nil;
    try exact I; intros c;
    first [apply lower_space | apply lower_letter | apply lower_digit
          | apply lower_comma].
Qed.

Lemma search_group_letters (p : pattern) (addr g : str) :
  In p patterns -> search p addr = Some g -> all_in isletter g.
Proof.
  intros Hp H. unfold search in H. apply search_from_leftmost in H.
  destruct H as (pre & rest & r & _ & Hm & Hg & _).
  assert (Hex : exists r, match_here p (before None pre) rest = Some r /\
                          group1 rest r = g) by eauto.
  destruct Hp as [<- | [<- | [<- | []]]].
  - apply comma_state_zip_matches in Hex.
    destruct Hex as (t & rest' & _ & ws & ws' & d & _ & _ & _ & Hl & _). exact Hl.
  - apply comma_state_comma_matches in Hex.
    destruct Hex as (t & rest' & _ & ws & ws' & _ & _ & _ & Hl & _). exact Hl.
  - apply word_state_zip_matches in Hex.
    destruct Hex as (t & rest' & _ & _ & ws' & d & _ & _ & Hl & _). exact Hl.
Qed.

Lemma upper_lower_letters (g : str) :
  all_in isletter g -> upper (lower g) = upper g.
Proof.
  induction 1 as [|c g Hc _ IH]; simpl; auto.
  now rewrite (upper_lower_letter _ Hc), IH.
Qed.

Lemma yields_lower (p : pattern) (addr : str) :
  In p patterns -> yields p (lower addr) = yields p addr.
Proof.
  intros Hp. unfold yields, search, lower.
  pose proof (search_from_map lower_word lower_newline addr (patterns_stable Hp) None)
    as Hs. cbn [option_map] in Hs. rewrite Hs. clear Hs.
  destruct (search_from p None addr) as [g|] eqn:E; simpl; auto.
  fold (lower g). rewrite (upper_lower_letters (search_group_letters addr Hp E)).
  reflexivity.
Qed.

(** X3.  The extracted state does not depend on the case of the address:
    lower-casing the address leaves it unchanged. *)
Theorem state_of_case_insensitive (addr : str) :
  state_of (lower addr) = state_of addr.
Proof.
  unfold state_of.
  assert (Hn : nonempty (lower addr) = nonempty addr) by (destruct addr; reflexivity).
  rewrite Hn. destruct (nonempty addr); auto.
  unfold patterns. rewrite !scan_patterns_cons.
  rewrite !yields_lower by (simpl; auto).
  reflexivity.
Qed.

(** X6.  For a target with an extracted state, the state-filtered phase over
    the index built from the rows is the scan of exactly the rows with a
    non-empty address from which the same state is extracted, in row order. *)
Theorem state_filtered_phase_scans_same_state
  (USE_RAPIDFUZZ : bool) (token_set_ratio sequence_ratio : str -> str -> Q)
  (D : Type) (rows : list (candidate D)) (unique_addr facility_name st : str) :
  state_of unique_addr = Some st ->
  state_filtered_phase USE_RAPIDFUZZ token_set_ratio sequence_ratio
                       (state_of unique_addr) unique_addr facility_name
                       (build_index rows)
  = find_best_match_combined USE_RAPIDFUZZ token_set_ratio sequence_ratio
                             unique_addr facility_name
                             (filter (same_state st) rows).
Proof.
  intros Hst. destruct (state_of_in_states _ Hst) as (Hin & Hlen & Hno).
  unfold state_filtered_phase. rewrite Hst.
  assert (Hne : nonempty st = true) by (destruct st; [discriminate | reflexivity]).
  rewrite Hne. unfold build_index. rewrite fold_index_get. cbn [index_get extend_bucket].
  assert (Hf : filter (fun c => indexed c && str_eqb (bucket_key c) st) rows
               = filter (same_state st) rows).
  { apply filter_ext. intros c. unfold indexed, same_state, bucket_key.
    destruct (nonempty (fst (fst c))); simpl; auto.
    destruct (state_of (fst (fst c))) as [s|] eqn:Hs.
    - destruct (state_of_in_states _ Hs) as (_ & Hl & _).
      assert (Hs' : nonempty s = true) by (destruct s; [discriminate | reflexivity]).
      now rewrite Hs'.
    - apply str_eqb_neq. congruence. }
  rewrite Hf. now destruct (filter (same_state st) rows).
Qed.

Lemma state_filtered_phase_scans_same_state_witness :
  state_filtered_phase true Sample.ratio Sample.ratio
    (state_of Sample.oak_target) Sample.oak_target []
    (build_index [(Sample.oak_candidate, py "Oak Facility Inc", 1);
                  (Sample.elm_candidate, py "Elm House", 2)])
  = find_best_match_combined true Sample.ratio Sample.ratio Sample.oak_target []
      (filter (same_state (py "TX"))
              [(Sample.oak_candidate, py "Oak Facility Inc", 1);
               (Sample.elm_candidate, py "Elm House", 2)]).
Proof.
  apply state_filtered_phase_scans_same_state. vm_compute. reflexivity.
Defined.

End CaseFacts.

(* ================================================================== *)
(** * Instances *)
(* ================================================================== *)

(** ["x usa usa"] normalises to ["x usa"], which a second pass changes. *)
Lemma normalize_address_twice_differs_witness :
  normalize_address (PyStr (normalize_address (PyStr (py "x usa usa"))))
  <> normalize_address (PyStr (py "x usa usa")).
Proof.
  apply (normalize_address_twice_differs (py "x usa usa")).
  left. vm_compute. reflexivity.
Defined.

(** Of two rows for the same person the first is kept. *)
Lemma drop_duplicates_keeps_first_witness :
  In Sample2.ann_first
     (Contacts.drop_duplicates [Sample2.ann_first; Sample2.ann_again]).
Proof.
  apply (proj1 (proj2 (proj2 (ContactFacts.drop_duplicates_keeps_first
                                [Sample2.ann_first; Sample2.ann_again])))
           [] Sample2.ann_first [Sample2.ann_again]); [reflexivity|].
  simpl. tauto.
Defined.

(** The two rows have the same four components, hence the same joined key. *)
Lemma dedup_key_composite_witness :
  Contacts.dedup_key Sample2.ann_first = Contacts.dedup_key Sample2.ann_again.
Proof.
  apply (proj2 (@ContactFacts.dedup_key_composite
                  Sample2.ann_first Sample2.ann_again
                  ltac:(vm_compute; repeat split; intros H;
                        repeat (destruct H as [H|H]; [discriminate|]); exact H)
                  ltac:(vm_compute; repeat split; intros H;
                        repeat (destruct H as [H|H]; [discriminate|]); exact H))).
  vm_compute. reflexivity.
Defined.
